(** * pugchamp lobby: role sufficiency and the launch-attempt state machine

    A shallow embedding of the lobby module (the exported
    [function(app, io, self, server)]): the combinatorial calculator
    [calculateRolesNeeded], the availability and ready registries, the
    promise-based [checkLaunchConditions], [attemptLaunch] with its ready-check
    timer, and the handlers of the events on [self].  The socket events
    ['changeAvailability'] and ['updateReadyStatus'] only re-emit on [self];
    the replays sent to a single newly connected socket change no variable and
    are left out.

    JavaScript values are modelled as the code uses them:
    - a [Set] of user identifiers is an insertion-ordered list without
      repetition ([JSSet]);
    - a plain object used as a dictionary ([config.get('app.games.roles')],
      [playersAvailable]) is an association list in key-insertion order;
    - an exception is a [Throw] in the [result] type;
    - promise reactions are jobs in an explicit FIFO queue, the ready-period
      timer is a counter of pending timeouts, and everything the module emits
      is appended to a trace of [effect]s. *)

From Stdlib Require Import ZArith.
From stdpp Require Import base option list sets gmap strings sorting.

Local Open Scope Z_scope.

(** ** Exceptions *)

Inductive jsError := TypeError | RangeError.

Inductive result (A : Type) : Type :=
| Ok (a : A)
| Throw (e : jsError).
Arguments Ok {A} a.
Arguments Throw {A} e.

#[global] Instance result_ret : MRet result := λ A a, Ok a.
#[global] Instance result_bind : MBind result := λ A B f r,
  match r with
  | Ok a => f a
  | Throw e => Throw e
  end.

(** [foldM f l b] runs [f] over [l] from the left, threading the accumulator,
    and stops at the first exception. *)
Fixpoint foldM {A B} (f : B → A → result B) (l : list A) (b : B) : result B :=
  match l with
  | [] => Ok b
  | x :: l' => b' ← f b x; foldM f l' b'
  end.

(** ** User identifiers and JavaScript sets *)

(** User identifiers are opaque; the module uses them as property names
    ([self.userRestrictions[userID]]), hence strings. *)
Definition userID := string.

Module JSSet.
(** The elements in insertion order, as spreading the set yields them. *)
Definition t := list userID.

Definition empty : t := [].

Definition has (x : userID) (s : t) : bool := bool_decide (x ∈ s).

Definition add (x : userID) (s : t) : t := if has x s then s else s ++ [x].

Definition delete (x : userID) (s : t) : t := filter (λ y, y ≠ x) s.

Definition size (s : t) : Z := Z.of_nat (length s).

(** [new Set(iterable)] adds the elements one after the other. *)
Definition from_list (l : list userID) : t := fold_left (λ s x, add x s) l empty.

(** [[...set]] *)
Definition to_list (s : t) : list userID := s.
End JSSet.

(** ** Plain objects and the lodash helpers the module calls *)

Definition object (A : Type) := list (string * A).

Module lodash.
Definition keys {A} (o : object A) : list string := o.*1.

Definition size {A} (l : list A) : Z := Z.of_nat (length l).

Definition mapValues {A B} (o : object A) (f : A → B) : object B :=
  (λ kv, (kv.1, f kv.2)) <$> o.

(** First occurrences only, in order ([lodash.uniq]). *)
Definition uniq (l : list userID) : list userID :=
  fold_left (λ acc x, if bool_decide (x ∈ acc) then acc else acc ++ [x]) l [].

(** The unique values of the first array that are included in the second. *)
Definition intersection (a b : list userID) : list userID :=
  uniq (filter (λ x, x ∈ b) a).

Definition includes (l : list string) (x : string) : bool := bool_decide (x ∈ l).

Definition without {A} `{EqDecision A} (l : list A) (x : A) : list A :=
  filter (λ y, y ≠ x) l.

Definition flatten {A} (l : list (list A)) : list A := concat l.
End lodash.

(** Property read [o[k]]: [None] is [undefined]. *)
Fixpoint get {A} (o : object A) (k : string) : option A :=
  match o with
  | [] => None
  | (k', v) :: o' => if decide (k' = k) then Some v else get o' k
  end.

(** ** js-combinatorics *)

(** [Combinatorics.combination(ary, nelem).toArray()] of the external
    js-combinatorics library: every [nelem]-element selection of [ary], each
    in the order of [ary], enumerated by increasing bit pattern (for
    [abcd] and 2: ab, ac, bc, ad, bd, cd).  A size of 0 stands for the whole
    array, and a size out of range raises [RangeError]. *)
Fixpoint comb_rev {A} (rl : list A) (k : nat) : list (list A) :=
  match k with
  | O => [[]]
  | S k' =>
      match rl with
      | [] => []
      | x :: rl' => comb_rev rl' k ++ ((λ c, c ++ [x]) <$> comb_rev rl' k')
      end
  end.

Definition combination {A} (ary : list A) (nelem : nat) : result (list (list A)) :=
  let nelem := if decide (nelem = 0%nat) then length ary else nelem in
  if decide (nelem < 1)%nat then Throw RangeError
  else if decide (length ary < nelem)%nat then Throw RangeError
  else Ok (comb_rev (rev ary) nelem).

(** ** Array spread *)

(** The values the module spreads into an array literal.  A [Set] and an
    array are iterable; a plain object (such as the result of
    [lodash.mapValues]) and [undefined] are not, and spreading them throws a
    [TypeError]. *)
Inductive spreadArg :=
| ofSet (s : JSSet.t)
| ofArray (l : list userID)
| ofObject (o : object JSSet.t)
| ofUndefined.

Definition spread (v : spreadArg) : result (list userID) :=
  match v with
  | ofSet s => Ok (JSSet.to_list s)
  | ofArray l => Ok l
  | ofObject _ => Throw TypeError
  | ofUndefined => Throw TypeError
  end.

(** ** The role sufficiency calculator *)

Record roleDescriptor := { min : Z }.

Record combinationInfo := { available : JSSet.t; required : Z }.

Record neededCombination := { roles : list string; needed : Z }.

#[global] Instance neededCombination_eq_dec : EqDecision neededCombination.
Proof. solve_decision. Defined.

Section Calculator.
(** [config.get('app.games.roles')] *)
Variable rolesConfig : object roleDescriptor.

(** The reducer of [checkCombination]: spreading
    [playersAvailable[roleName]] throws when the property is undefined, and
    so does reading [.min] of an undefined role. *)
Definition addRole (playersAvailable : object JSSet.t)
    (current : combinationInfo) (roleName : string) : result combinationInfo :=
  pool ← spread (match get playersAvailable roleName with
                 | Some players => ofSet players
                 | None => ofUndefined
                 end);
  match get rolesConfig roleName with
  | None => Throw TypeError
  | Some role =>
      Ok {| available := JSSet.from_list (JSSet.to_list (available current) ++ pool);
            required := required current + min role * 2 |}
  end.

(** [checkCombination], with [neededCombinations] passed through. *)
Definition checkCombination (playersAvailable : object JSSet.t)
    (neededCombinations : list neededCombination) (combination : list string)
  : result (list neededCombination) :=
  combinationInfo ← foldM (addRole playersAvailable) combination
                      {| available := JSSet.empty; required := 0 |};
  let missing := required combinationInfo - JSSet.size (available combinationInfo) in
  if decide (missing > 0)
  then Ok (neededCombinations ++ [{| roles := combination; needed := missing |}])
  else Ok neededCombinations.

Definition calculateRolesNeeded (playersAvailable : object JSSet.t)
  : result (list neededCombination) :=
  let roleNames := lodash.keys rolesConfig in
  let n := length rolesConfig in
  foldM (λ neededCombinations k,
           combinations ← combination roleNames k;
           foldM (checkCombination playersAvailable) combinations neededCombinations)
        (seq 1 n) [].
End Calculator.

(** ** Launch conditions, status snapshots and what the module emits *)

Inductive launchCondition := notAvailable | readyNotChecked | notReady.

#[global] Instance launchCondition_eq_dec : EqDecision launchCondition.
Proof. solve_decision. Defined.

(** The strings the code uses for the tags. *)
Definition tagName (c : launchCondition) : string :=
  match c with
  | notAvailable => "notAvailable"
  | readyNotChecked => "readyNotChecked"
  | notReady => "notReady"
  end.

(** [lodash.compact] drops the falsy entries; a string is falsy when empty. *)
Definition compact (l : list launchCondition) : list launchCondition :=
  filter (λ c, tagName c ≠ EmptyString) l.

Record statusMessage (FilteredUser : Type) := {
  msg_playersAvailable : object (list FilteredUser);
  msg_captainsAvailable : list FilteredUser;
  msg_rolesNeeded : list neededCombination;
  msg_missingLaunchConditions : option (list launchCondition)
}.
Arguments msg_playersAvailable {FilteredUser} _.
Arguments msg_captainsAvailable {FilteredUser} _.
Arguments msg_rolesNeeded {FilteredUser} _.
Arguments msg_missingLaunchConditions {FilteredUser} _.

Inductive effect (FilteredUser : Type) :=
| io_launchStatusUpdated (msg : option (statusMessage FilteredUser))
| io_launchInProgress
| io_launchAborted
| sendUserAvailabilityUpdated (u : userID) (roles : object bool) (captain : bool)
| sendUserReadyStatusUpdated (u : userID) (ready : bool)
| launchGameDraft (players : list userID) (captains : list userID)
| unhandledRejection (e : jsError).
Arguments io_launchStatusUpdated {FilteredUser} msg.
Arguments io_launchInProgress {FilteredUser}.
Arguments io_launchAborted {FilteredUser}.
Arguments sendUserAvailabilityUpdated {FilteredUser} u roles captain.
Arguments sendUserReadyStatusUpdated {FilteredUser} u ready.
Arguments launchGameDraft {FilteredUser} players captains.
Arguments unhandledRejection {FilteredUser} e.

(** ** Promise jobs *)

(** The two callbacks chained on [checkLaunchConditions()]. *)
Inductive continuation := afterLaunchCheck | afterReadyPeriod.

(** [checkLaunchConditions()] builds
    [Promise.all([p]).then(f)], and its caller chains [.then(k)]: the element
    reaction of [Promise.all], then [f], then [k] run as three successive
    jobs.  A rejection skips the callbacks and ends unhandled. *)
Inductive job :=
| allElementResolved (conditions : list launchCondition) (k : continuation)
| thenStoreConditions (launchConditions : list (list launchCondition)) (k : continuation)
| thenContinue (k : continuation)
| rejected (e : jsError).

Definition jobWeight (j : job) : nat :=
  match j with
  | allElementResolved _ _ => 3
  | thenStoreConditions _ _ => 2
  | thenContinue _ => 1
  | rejected _ => 1
  end.

(** ** The module's variables *)

Record lobby (FilteredUser : Type) := {
  captainsAvailable : JSSet.t;
  playersAvailable : object JSSet.t;
  missingLaunchConditions : option (list launchCondition);
  launchAttemptInProgress : bool;
  readiesReceived : JSSet.t;
  currentStatusMessage : option (statusMessage FilteredUser);
  (** the promise job queue and the number of pending ready-period timeouts *)
  jobs : list job;
  timers : nat
}.
Arguments captainsAvailable {FilteredUser} _.
Arguments playersAvailable {FilteredUser} _.
Arguments missingLaunchConditions {FilteredUser} _.
Arguments launchAttemptInProgress {FilteredUser} _.
Arguments readiesReceived {FilteredUser} _.
Arguments currentStatusMessage {FilteredUser} _.
Arguments jobs {FilteredUser} _.
Arguments timers {FilteredUser} _.

(** Payloads of the two events on [self]. *)
Record availability := { av_userID : userID; av_roles : list string; av_captain : bool }.
Record readyInfo := { ri_userID : userID; ri_ready : bool }.

(** An entry of [self.userRestrictions]. *)
Record restrictions := { aspects : list string }.

(** ** The module body *)

Section Lobby.
Variable rolesConfig : object roleDescriptor.
(** [self.getFilteredUser], defined by another module. *)
Context {FilteredUser : Type}.
Variable getFilteredUser : userID → FilteredUser.

Abbreviation lobby := (lobby FilteredUser).
Abbreviation effect := (effect FilteredUser).
Abbreviation statusMessage := (statusMessage FilteredUser).

(** A computation reads and writes the module's variables, emits, and may
    throw; what was written and emitted before a throw stays. *)
Definition M (A : Type) : Type := lobby → result A * lobby * list effect.

Definition ret {A} (a : A) : M A := λ st, (Ok a, st, []).

Definition bind {A B} (m : M A) (f : A → M B) : M B := λ st,
  match m st with
  | (Ok a, st', tr) => let '(r, st'', tr') := f a st' in (r, st'', tr ++ tr')
  | (Throw e, st', tr) => (Throw e, st', tr)
  end.

Definition throw {A} (e : jsError) : M A := λ st, (Throw e, st, []).
Definition lift {A} (r : result A) : M A := λ st, (r, st, []).
Definition read : M lobby := λ st, (Ok st, st, []).
Definition write (f : lobby → lobby) : M unit := λ st, (Ok tt, f st, []).
Definition emit (e : effect) : M unit := λ st, (Ok tt, st, [e]).

#[local] Instance M_ret : MRet M := @ret.
#[local] Instance M_bind : MBind M := λ A B f m, bind m f.

Definition set_captainsAvailable (v : JSSet.t) (st : lobby) : lobby :=
  {| captainsAvailable := v; playersAvailable := playersAvailable st;
     missingLaunchConditions := missingLaunchConditions st;
     launchAttemptInProgress := launchAttemptInProgress st;
     readiesReceived := readiesReceived st;
     currentStatusMessage := currentStatusMessage st;
     jobs := jobs st; timers := timers st |}.

Definition set_playersAvailable (v : object JSSet.t) (st : lobby) : lobby :=
  {| captainsAvailable := captainsAvailable st; playersAvailable := v;
     missingLaunchConditions := missingLaunchConditions st;
     launchAttemptInProgress := launchAttemptInProgress st;
     readiesReceived := readiesReceived st;
     currentStatusMessage := currentStatusMessage st;
     jobs := jobs st; timers := timers st |}.

Definition set_missingLaunchConditions (v : option (list launchCondition))
    (st : lobby) : lobby :=
  {| captainsAvailable := captainsAvailable st;
     playersAvailable := playersAvailable st;
     missingLaunchConditions := v;
     launchAttemptInProgress := launchAttemptInProgress st;
     readiesReceived := readiesReceived st;
     currentStatusMessage := currentStatusMessage st;
     jobs := jobs st; timers := timers st |}.

Definition set_launchAttemptInProgress (v : bool) (st : lobby) : lobby :=
  {| captainsAvailable := captainsAvailable st;
     playersAvailable := playersAvailable st;
     missingLaunchConditions := missingLaunchConditions st;
     launchAttemptInProgress := v;
     readiesReceived := readiesReceived st;
     currentStatusMessage := currentStatusMessage st;
     jobs := jobs st; timers := timers st |}.

Definition set_readiesReceived (v : JSSet.t) (st : lobby) : lobby :=
  {| captainsAvailable := captainsAvailable st;
     playersAvailable := playersAvailable st;
     missingLaunchConditions := missingLaunchConditions st;
     launchAttemptInProgress := launchAttemptInProgress st;
     readiesReceived := v;
     currentStatusMessage := currentStatusMessage st;
     jobs := jobs st; timers := timers st |}.

Definition set_currentStatusMessage (v : option statusMessage) (st : lobby) : lobby :=
  {| captainsAvailable := captainsAvailable st;
     playersAvailable := playersAvailable st;
     missingLaunchConditions := missingLaunchConditions st;
     launchAttemptInProgress := launchAttemptInProgress st;
     readiesReceived := readiesReceived st;
     currentStatusMessage := v;
     jobs := jobs st; timers := timers st |}.

Definition set_jobs (v : list job) (st : lobby) : lobby :=
  {| captainsAvailable := captainsAvailable st;
     playersAvailable := playersAvailable st;
     missingLaunchConditions := missingLaunchConditions st;
     launchAttemptInProgress := launchAttemptInProgress st;
     readiesReceived := readiesReceived st;
     currentStatusMessage := currentStatusMessage st;
     jobs := v; timers := timers st |}.

Definition set_timers (v : nat) (st : lobby) : lobby :=
  {| captainsAvailable := captainsAvailable st;
     playersAvailable := playersAvailable st;
     missingLaunchConditions := missingLaunchConditions st;
     launchAttemptInProgress := launchAttemptInProgress st;
     readiesReceived := readiesReceived st;
     currentStatusMessage := currentStatusMessage st;
     jobs := jobs st; timers := v |}.

Definition enqueue (j : job) : M unit := write (λ st, set_jobs (jobs st ++ [j]) st).

(** [setTimeout(..., ms(config.get('app.launch.readyPeriod')))] *)
Definition setTimeout : M unit := write (λ st, set_timers (S (timers st)) st).

(** The variables as the module initialises them. *)
Definition initial : lobby :=
  {| captainsAvailable := JSSet.empty;
     playersAvailable := lodash.mapValues rolesConfig (λ _, JSSet.empty);
     missingLaunchConditions := None;
     launchAttemptInProgress := false;
     readiesReceived := JSSet.empty;
     currentStatusMessage := None;
     jobs := []; timers := 0 |}.

(** [available ∩ readiesReceived] as the code computes it. *)
Definition readyOnly (readies : JSSet.t) (available : JSSet.t) : JSSet.t :=
  JSSet.from_list (lodash.intersection (JSSet.to_list available) (JSSet.to_list readies)).

(** The executor of the promise in [checkLaunchConditions]; an exception
    in it rejects the promise. *)
Definition launchConditionsExecutor (st : lobby) : result (list launchCondition) :=
  if decide (JSSet.size (captainsAvailable st) < 2) then Ok [notAvailable]
  else
    rolesNeeded ← calculateRolesNeeded rolesConfig (playersAvailable st);
    if decide (lodash.size rolesNeeded ≠ 0) then Ok [notAvailable]
    else if negb (launchAttemptInProgress st) then Ok [readyNotChecked]
    else
      let finalPlayersAvailable :=
        lodash.mapValues (playersAvailable st) (readyOnly (readiesReceived st)) in
      let finalCaptainsAvailable :=
        readyOnly (readiesReceived st) (captainsAvailable st) in
      if decide (JSSet.size finalCaptainsAvailable < 2) then Ok [notReady]
      else
        finalRolesNeeded ← calculateRolesNeeded rolesConfig finalPlayersAvailable;
        if decide (lodash.size finalRolesNeeded ≠ 0) then Ok [notReady]
        else Ok [].

(** What the callback chained on [Promise.all] stores and returns. *)
Definition storedConditions (launchConditions : list (list launchCondition))
  : list launchCondition :=
  compact (lodash.flatten launchConditions).


(** [checkLaunchConditions().then(k)]: the executor runs at once, the rest
    as jobs. *)
Definition checkLaunchConditions (k : continuation) : M unit :=
  st ← read;
  match launchConditionsExecutor st with
  | Ok conditions => enqueue (allElementResolved conditions k)
  | Throw e => enqueue (rejected e)
  end.

Definition prepareStatusMessage : M unit :=
  st ← read;
  rolesNeeded ← lift (calculateRolesNeeded rolesConfig (playersAvailable st));
  write (set_currentStatusMessage (Some
    {| msg_playersAvailable :=
         lodash.mapValues (playersAvailable st)
           (λ available, getFilteredUser <$> JSSet.to_list available);
       msg_captainsAvailable := getFilteredUser <$> JSSet.to_list (captainsAvailable st);
       msg_rolesNeeded := rolesNeeded;
       msg_missingLaunchConditions := missingLaunchConditions st |})).

(** [io.sockets.emit('launchStatusUpdated', currentStatusMessage)] *)
Definition broadcastStatus : M unit :=
  st ← read; emit (io_launchStatusUpdated (currentStatusMessage st)).

(** The synchronous part of [attemptLaunch]. *)
Definition attemptLaunch : M unit :=
  st ← read;
  if launchAttemptInProgress st
  then prepareStatusMessage;; broadcastStatus
  else checkLaunchConditions afterLaunchCheck.

(** The callback [attemptLaunch] chains on the check. *)
Definition onLaunchChecked : M unit :=
  prepareStatusMessage;;
  broadcastStatus;;
  st ← read;
  if decide (lodash.size
               (lodash.without (default [] (missingLaunchConditions st)) readyNotChecked) = 0)
  then
    write (set_launchAttemptInProgress true);;
    write (set_readiesReceived JSSet.empty);;
    emit io_launchInProgress;;
    setTimeout
  else ret tt.

(** The callback the timer chains on its check. *)
Definition onReadyPeriodChecked : M unit :=
  write (λ st, set_playersAvailable
                 (lodash.mapValues (playersAvailable st) (readyOnly (readiesReceived st))) st);;
  write (λ st, set_captainsAvailable
                 (readyOnly (readiesReceived st) (captainsAvailable st)) st);;
  prepareStatusMessage;;
  broadcastStatus;;
  st ← read;
  if decide (lodash.size (default [] (missingLaunchConditions st)) = 0)
  then
    players ← lift (spread (ofObject (playersAvailable st)));
    captains ← lift (spread (ofSet (captainsAvailable st)));
    emit (launchGameDraft players captains)
  else emit io_launchAborted.

(** The function given to [setTimeout]. *)
Definition onReadyPeriodElapsed : M unit :=
  write (λ st, set_timers (pred (timers st)) st);;
  checkLaunchConditions afterReadyPeriod.

Definition runJob (j : job) : M unit :=
  match j with
  | allElementResolved conditions k => enqueue (thenStoreConditions [conditions] k)
  | thenStoreConditions launchConditions k =>
      write (set_missingLaunchConditions (Some (storedConditions launchConditions)));;
      enqueue (thenContinue k)
  | thenContinue afterLaunchCheck => onLaunchChecked
  | thenContinue afterReadyPeriod => onReadyPeriodChecked
  | rejected e => throw e
  end.
(** *** Handlers *)

(** The registry update of the ['updateUserAvailability'] handler, for
    the restrictions found for the user. *)
Definition applyAvailability (userRestrictions : restrictions)
    (newAvailability : availability) : M unit :=
  let u := av_userID newAvailability in
  if negb (lodash.includes (aspects userRestrictions) "start")
  then
    write (λ st, set_playersAvailable
                   ((λ entry : string * JSSet.t,
                       let (role, players) := entry in
                       (role, if lodash.includes (av_roles newAvailability) role
                              then JSSet.add u players
                              else JSSet.delete u players))
                      <$> playersAvailable st) st);;
    if negb (lodash.includes (aspects userRestrictions) "captain")
    then
      if av_captain newAvailability
      then write (λ st, set_captainsAvailable (JSSet.add u (captainsAvailable st)) st)
      else write (λ st, set_captainsAvailable (JSSet.delete u (captainsAvailable st)) st)
    else write (λ st, set_captainsAvailable (JSSet.delete u (captainsAvailable st)) st)
  else
    write (λ st, set_playersAvailable
                   (lodash.mapValues (playersAvailable st) (JSSet.delete u)) st);;
    write (λ st, set_captainsAvailable (JSSet.delete u (captainsAvailable st)) st).

(** [self.on('updateUserAvailability', ...)], given [self.userRestrictions]
    as it is when the event arrives.  Reading [.aspects] of an undefined
    entry throws. *)
Definition updateUserAvailability (allRestrictions : gmap userID restrictions)
    (newAvailability : availability) : M unit :=
  match allRestrictions !! av_userID newAvailability with
  | None => throw TypeError
  | Some userRestrictions =>
      applyAvailability userRestrictions newAvailability;;
      st ← read;
      emit (sendUserAvailabilityUpdated (av_userID newAvailability)
              (lodash.mapValues (playersAvailable st) (JSSet.has (av_userID newAvailability)))
              (JSSet.has (av_userID newAvailability) (captainsAvailable st)));;
      attemptLaunch
  end.

(** [self.on('updateUserReadyStatus', ...)] *)
Definition updateUserReadyStatus (info : readyInfo) : M unit :=
  st ← read;
  (if launchAttemptInProgress st
   then
     if ri_ready info
     then write (λ st, set_readiesReceived (JSSet.add (ri_userID info) (readiesReceived st)) st)
     else write (λ st, set_readiesReceived (JSSet.delete (ri_userID info) (readiesReceived st)) st)
   else ret tt);;
  emit (sendUserReadyStatusUpdated (ri_userID info) (ri_ready info)).

(** [self.on('userDisconnected', ...)]: the two events are emitted, and
    handled, one after the other. *)
Definition userDisconnected (allRestrictions : gmap userID restrictions)
    (u : userID) : M unit :=
  updateUserAvailability allRestrictions
    {| av_userID := u; av_roles := []; av_captain := false |};;
  updateUserReadyStatus {| ri_userID := u; ri_ready := false |}.

(** *** The event loop *)

Inductive event :=
| availabilityChanged (allRestrictions : gmap userID restrictions) (a : availability)
| readyStatusChanged (info : readyInfo)
| disconnected (allRestrictions : gmap userID restrictions) (u : userID)
| readyPeriodElapsed.

Definition handle (ev : event) : M unit :=
  match ev with
  | availabilityChanged allRestrictions a => updateUserAvailability allRestrictions a
  | readyStatusChanged info => updateUserReadyStatus info
  | disconnected allRestrictions u => userDisconnected allRestrictions u
  | readyPeriodElapsed => onReadyPeriodElapsed
  end.

(** The timer callback only runs for a timeout that was set. *)
Definition enabled (ev : event) (st : lobby) : Prop :=
  match ev with
  | readyPeriodElapsed => (0 < timers st)%nat
  | _ => True
  end.

(** Runs the promise jobs in order; a job that throws rejects its promise,
    which nothing handles. *)
Fixpoint runJobs (fuel : nat) (st : lobby) : lobby * list effect :=
  match fuel, jobs st with
  | S fuel', j :: queue =>
      let '(r, st', tr) := runJob j (set_jobs queue st) in
      let tr' := match r with
                 | Ok _ => tr
                 | Throw e => tr ++ [unhandledRejection e]
                 end in
      let '(st'', tr'') := runJobs fuel' st' in
      (st'', tr' ++ tr'')
  | _, _ => (st, [])
  end.

(** Each job enqueues at most one job of smaller weight, so the total
    weight of the queue is enough fuel to empty it. *)
Definition drain (st : lobby) : lobby * list effect :=
  runJobs (sum_list (jobWeight <$> jobs st)) st.

(** One turn of the event loop: the handler, then the jobs it left. *)
Definition turn (m : M unit) (st : lobby) : result unit * lobby * list effect :=
  let '(r, st', tr) := m st in
  let '(st'', tr') := drain st' in
  (r, st'', tr ++ tr').

Definition dispatch (ev : event) : lobby → result unit * lobby * list effect :=
  turn (handle ev).

(** The module calls [attemptLaunch()] once when it is loaded. *)
Definition startup : result unit * lobby * list effect := turn attemptLaunch initial.

Inductive reachable : lobby → Prop :=
| reachable_startup : reachable startup.1.2
| reachable_dispatch st ev :
    reachable st → enabled ev st → reachable (dispatch ev st).1.2.
End Lobby.

(** ** The calculator and the launch conditions as the specification words them *)

(** The pool of a role as a finite set; a role without a pool has nobody. *)
Definition poolOf (pools : object JSSet.t) (role : string) : gset userID :=
  list_to_set (default [] (get pools role)).

(** Number of distinct users available for at least one role of the subset. *)
Definition unionSize (pool : string → gset userID) (subset : list string) : Z :=
  Z.of_nat (size (⋃ (pool <$> subset))).

Definition minimumPerTeam (rolesConfig : object roleDescriptor) (role : string) : Z :=
  from_option min 0 (get rolesConfig role).

(** Sum of [minimumPerTeam × 2] over the subset. *)
Definition requiredFor (rolesConfig : object roleDescriptor) (subset : list string) : Z :=
  foldr (λ role total, minimumPerTeam rolesConfig role * 2 + total) 0 subset.

(** Every configured role has a pool in the availability mapping. *)
Definition covers (rolesConfig : object roleDescriptor) (pools : object JSSet.t) : Prop :=
  Forall (λ role, is_Some (get pools role)) (lodash.keys rolesConfig).


(** A subset is deficient when it is not empty and its pools together hold
    fewer distinct users than it requires. *)
Definition deficient (rolesConfig : object roleDescriptor)
    (pool : string → gset userID) (subset : list string) : Prop :=
  subset ≠ [] ∧ unionSize pool subset < requiredFor rolesConfig subset.

#[global] Instance deficient_dec rolesConfig pool subset :
  Decision (deficient rolesConfig pool subset).
Proof. unfold deficient. apply _. Defined.



(** [updateAvailability] of section 4.2 on the registry: a user denied
    [start] is removed everywhere; otherwise the user is in exactly the pools
    of the desired roles, and in the captain set when captaincy is wanted and
    not denied. *)
Definition spec_updateAvailability (u : userID) (desiredRoles : list string)
    (wantsCaptain : bool) (denied : list string)
    (reg : object JSSet.t * JSSet.t) : object JSSet.t * JSSet.t :=
  if bool_decide ("start" ∈ denied)
  then (lodash.mapValues reg.1 (JSSet.delete u), JSSet.delete u reg.2)
  else ((λ entry, (entry.1, if bool_decide (entry.1 ∈ desiredRoles)
                            then JSSet.add u entry.2
                            else JSSet.delete u entry.2)) <$> reg.1,
        if bool_decide ("captain" ∈ denied) then JSSet.delete u reg.2
        else if wantsCaptain then JSSet.add u reg.2 else JSSet.delete u reg.2).

(** ** Auxiliary definitions for the statements *)

(** The deficit entry of one combination, if it has one. *)
Definition deficitOf (rolesConfig : object roleDescriptor) (pools : object JSSet.t)
    (combination : list string) : list neededCombination :=
  let missing := requiredFor rolesConfig combination - unionSize (poolOf pools) combination in
  if decide (missing > 0) then [{| roles := combination; needed := missing |}] else [].

(** The combinations in the order the calculator examines them. *)
Definition examined (roleNames : list string) : list (list string) :=
  seq 1 (length roleNames) ≫= λ k, comb_rev (rev roleNames) k.

Definition deficits (rolesConfig : object roleDescriptor) (pools : object JSSet.t)
  : list neededCombination :=
  examined (lodash.keys rolesConfig) ≫= deficitOf rolesConfig pools.

(** The availability registry: the role pools and the captain set. *)
Definition registry {FilteredUser} (st : lobby FilteredUser) : object JSSet.t * JSSet.t :=
  (playersAvailable st, captainsAvailable st).

(** The sets are sets, and every configured role has its pool. *)
Definition wellFormed {FilteredUser} (rolesConfig : object roleDescriptor)
    (st : lobby FilteredUser) : Prop :=
  NoDup (captainsAvailable st) ∧ covers rolesConfig (playersAvailable st).

(** The snapshot [prepareStatusMessage] builds in a well-formed state. *)
Definition statusOf {FilteredUser} (rolesConfig : object roleDescriptor)
    (getFilteredUser : userID → FilteredUser) (st : lobby FilteredUser)
  : statusMessage FilteredUser :=
  {| msg_playersAvailable :=
       lodash.mapValues (playersAvailable st) (λ available, getFilteredUser <$> available);
     msg_captainsAvailable := getFilteredUser <$> captainsAvailable st;
     msg_rolesNeeded := deficits rolesConfig (playersAvailable st);
     msg_missingLaunchConditions := missingLaunchConditions st |}.

(** The state after the registry update of an availability event. *)
Definition updated {FilteredUser} (userRestrictions : restrictions) (a : availability)
    (st : lobby FilteredUser) : lobby FilteredUser :=
  let reg := spec_updateAvailability (av_userID a) (av_roles a) (av_captain a)
               (aspects userRestrictions) (registry st) in
  set_captainsAvailable reg.2 (set_playersAvailable reg.1 st).

(** Whether the stored conditions let [attemptLaunch] open a window. *)
Definition opens (conditions : option (list launchCondition)) : Prop :=
  lodash.size (lodash.without (default [] conditions) readyNotChecked) = 0.

(** The state once the callback chained on [Promise.all] has stored the
    conditions, with nothing else queued. *)
Definition afterStore {FilteredUser} (conditions : list launchCondition)
    (st : lobby FilteredUser) : lobby FilteredUser :=
  set_jobs [] (set_missingLaunchConditions (Some conditions) st).

(** The invariant of the states between two turns of the event loop. *)
Definition quiescent {FilteredUser} (rolesConfig : object roleDescriptor)
    (st : lobby FilteredUser) : Prop :=
  wellFormed rolesConfig st
  ∧ jobs st = []
  ∧ (launchAttemptInProgress st = false → readiesReceived st = [] ∧ timers st = 0%nat)
  ∧ (timers st ≤ 1)%nat.


Definition isRosterEvent {FilteredUser} (e : effect FilteredUser) : bool :=
  match e with
  | launchGameDraft _ _ => true
  | _ => false
  end.

(** ** Example configuration and states *)

Module Example.
(** Roles [{tank: {min: 1}, healer: {min: 1}}]. *)
Definition rolesConfig : object roleDescriptor :=
  [("tank", {| min := 1 |}); ("healer", {| min := 1 |})].

Definition getFilteredUser (u : userID) : userID := u.

Definition noRestrictions : gmap userID restrictions :=
  list_to_map ((λ u, (u, {| aspects := [] |})) <$> ["A"; "B"; "C"; "D"]).

Definition join (u : userID) (role : string) (captain : bool) : event :=
  availabilityChanged noRestrictions
    {| av_userID := u; av_roles := [role]; av_captain := captain |}.

Definition ready (u : userID) : event :=
  readyStatusChanged {| ri_userID := u; ri_ready := true |}.

Definition after (evs : list event) (st : lobby userID) : lobby userID :=
  fold_left (λ st ev, (dispatch rolesConfig getFilteredUser ev st).1.2) evs st.

Definition started : lobby userID := (startup rolesConfig getFilteredUser).1.2.

(** Tank pool {A, B}, healer pool {A, B}: the pools overlap fully. *)
Definition overlapping : object JSSet.t :=
  [("tank", ["A"; "B"]); ("healer", ["A"; "B"])].

(** A and B are available as tanks and captains, C and D as healers: the
    ready-check window has just opened. *)
Definition windowOpen : lobby userID :=
  after [join "A" "tank" true; join "B" "tank" true;
         join "C" "healer" false; join "D" "healer" false] started.

(** Everybody reaffirmed readiness before the timeout. *)
Definition allReady : lobby userID :=
  after [ready "A"; ready "B"; ready "C"; ready "D"] windowOpen.

(** So did E, who is available for nothing. *)
Definition bystanderReady : lobby userID := after [ready "E"] allReady.

(** Of the two captains only A did. *)
Definition oneCaptainReady : lobby userID :=
  after [ready "A"; ready "C"; ready "D"] windowOpen.
End Example.

(** ** Staffing *)

(** The teams can be staffed from the pools: every role gets its own users,
    taken from its pool, no user serves two roles, and every configured role
    gets at least [min * 2] of them. *)
Definition staffable (rolesConfig : object roleDescriptor) (pools : object JSSet.t) : Prop :=
  ∃ staff : string → gset userID,
    (∀ role, staff role ⊆ poolOf pools role)
    ∧ (∀ role1 role2, role1 ≠ role2 → staff role1 ## staff role2)
    ∧ (∀ role, role ∈ lodash.keys rolesConfig →
               minimumPerTeam rolesConfig role * 2 ≤ Z.of_nat (size (staff role))).

(** ** Messages to a single socket *)

Inductive socketMessage (FilteredUser : Type) :=
| socket_launchStatusUpdated (msg : option (statusMessage FilteredUser))
| socket_userAvailabilityUpdated (roles : object bool) (captain : bool)
| socket_launchInProgress
| socket_userReadyStatusUpdated (ready : bool).
Arguments socket_launchStatusUpdated {FilteredUser} msg.
Arguments socket_userAvailabilityUpdated {FilteredUser} roles captain.
Arguments socket_launchInProgress {FilteredUser}.
Arguments socket_userReadyStatusUpdated {FilteredUser} ready.

(** [io.sockets.on('connection', ...)]: the latest snapshot is replayed to
    the new socket. *)
Definition onConnection {FilteredUser} (st : lobby FilteredUser)
  : list (socketMessage FilteredUser) :=
  [socket_launchStatusUpdated (currentStatusMessage st)].

(** [io.sockets.on('authenticated', ...)]: what the socket is sent at once,
    for the user [decoded_token] of its token. *)
Definition onAuthenticated {FilteredUser} (decoded_token : userID) (st : lobby FilteredUser)
  : list (socketMessage FilteredUser) :=
  socket_userAvailabilityUpdated
    (lodash.mapValues (playersAvailable st) (JSSet.has decoded_token))
    (JSSet.has decoded_token (captainsAvailable st))
  :: if launchAttemptInProgress st
     then [socket_launchInProgress;
           socket_userReadyStatusUpdated (JSSet.has decoded_token (readiesReceived st))]
     else [].


(** While the timer of a window is pending, the stored conditions are those
    of the check that opened it. *)
Definition pendingShowsReadyNotChecked {FilteredUser} (st : lobby FilteredUser) : Prop :=
  (0 < timers st)%nat → missingLaunchConditions st = Some [readyNotChecked].

(** The latest snapshot is the one of the current state. *)
Definition snapshotCurrent {FilteredUser} (rolesConfig : object roleDescriptor)
    (getFilteredUser : userID → FilteredUser) (st : lobby FilteredUser) : Prop :=
  currentStatusMessage st = Some (statusOf rolesConfig getFilteredUser st).

(** * scripts/updatePlayerStats.js: the pure helpers *)

Module Stats.
(** The values the helpers inspect.  An object carries its identity, since
    [===] compares objects by reference; [vObjectID] stands for an object with
    a [toHexString] method (a database identifier), [vObject] for any other
    object, with the properties [_.hasIn] can see.  Property values are never
    functions here, so calling one throws. *)
Inductive jsValue :=
| vUndefined
| vNull
| vBoolean (b : bool)
| vNumber (n : Z)
| vString (s : string)
| vObjectID (ref : nat) (hex : string)
| vObject (ref : nat) (properties : list (string * jsValue)).

(** [_.hasIn(v, key)]: false for [null], [undefined] and for these keys on
    primitives. *)
Definition hasIn (v : jsValue) (key : string) : bool :=
  match v with
  | vObjectID _ _ => bool_decide (key = "toHexString")
  | vObject _ properties => bool_decide (key ∈ properties.*1)
  | _ => false
  end.

(** [v[key]] *)
Definition prop (v : jsValue) (key : string) : jsValue :=
  match v with
  | vObject _ properties => default vUndefined (get properties key)
  | _ => vUndefined
  end.

(** [v.toHexString()] *)
Definition toHexString (v : jsValue) : result jsValue :=
  match v with
  | vObjectID _ hex => Ok (vString hex)
  | _ => Throw TypeError
  end.

Definition isString (v : jsValue) : bool :=
  match v with vString _ => true | _ => false end.

Definition isObject (v : jsValue) : bool :=
  match v with vObjectID _ _ | vObject _ _ => true | _ => false end.

(** [a === b] *)
Definition strictEquals (a b : jsValue) : bool :=
  match a, b with
  | vUndefined, vUndefined => true
  | vNull, vNull => true
  | vBoolean x, vBoolean y => bool_decide (x = y)
  | vNumber x, vNumber y => bool_decide (x = y)
  | vString x, vString y => bool_decide (x = y)
  | vObjectID x _, vObjectID y _ => bool_decide (x = y)
  | vObject x _, vObject y _ => bool_decide (x = y)
  | _, _ => false
  end.

Definition getDocumentID (info : jsValue) : result jsValue :=
  if hasIn info "toHexString" then toHexString info
  else if isString info then Ok info
  else if isObject info then
    if hasIn info "_id" && hasIn (prop info "_id") "toHexString"
    then toHexString (prop info "_id")
    else if hasIn info "id" then Ok (prop info "id")
    else Ok vNull
  else Ok vNull.

(** The parts of a game document the helpers read. *)
Record rosterPlayer := { user : jsValue }.
Record rosterRole := { role : string; players : list rosterPlayer }.
Record team := { captain : jsValue; composition : list rosterRole }.
Record draftChoice := { type : string; player : jsValue }.
Record game := { teams : list team; choices : list draftChoice }.







(** The loop over [game.draft.choices]: the 1-based rank of the user's pick
    among the player picks. *)
Fixpoint pickPosition (u : jsValue) (draftChoices : list draftChoice) (position : nat)
  : result nat :=
  match draftChoices with
  | [] => Ok position
  | choice :: rest =>
      if bool_decide (type choice = "playerPick")
      then
        picked ← getDocumentID (player choice);
        userID ← getDocumentID u;
        if strictEquals picked userID then Ok (S position)
        else pickPosition u rest (S position)
      else pickPosition u rest position
  end.

(** [draftPositions] is an object with integer keys, which JavaScript
    enumerates in ascending order: an association list sorted by key.
    [bump] is [if (!draftPositions[position]) draftPositions[position] = 0;
    draftPositions[position]++]. *)
Fixpoint bump (position : nat) (draftPositions : list (nat * nat)) : list (nat * nat) :=
  match draftPositions with
  | [] => [(position, 1%nat)]
  | (k, count) :: rest =>
      if decide (position < k)%nat then (position, 1%nat) :: draftPositions
      else if decide (position = k) then (k, S count) :: rest
      else (k, count) :: bump position rest
  end.

(** The [picked] entries of [draftStats] (lines 185 to 227), for the number
    of player picks of the configured draft order and the games the user was
    drafted in. *)
Definition pickedStats (playersPicked : nat) (draftedGames : list game) (u : jsValue)
  : result (list (nat * nat)) :=
  foldM (λ draftPositions g,
           position ← pickPosition u (choices g) 0;
           Ok (bump position draftPositions))
        draftedGames
        ((λ i, (i, 0%nat)) <$> seq 1 playersPicked).

Definition isPlayerPick (choice : draftChoice) : Prop := type choice = "playerPick".

#[global] Instance isPlayerPick_dec (choice : draftChoice) : Decision (isPlayerPick choice) :=
  decide (type choice = "playerPick").

(** The choice is a player pick of the user. *)
Definition picks (u : jsValue) (choice : draftChoice) : Prop :=
  isPlayerPick choice
  ∧ ∃ picked userID, getDocumentID (player choice) = Ok picked
                     ∧ getDocumentID u = Ok userID
                     ∧ strictEquals picked userID = true.

End Stats.

Module StatsExample.
Import Stats.

(** Two teams: "aa" captains the first, where the populated document of
    "bb" plays tank; "cc" captains the second, which has no player yet. *)
Definition twoTeams : game :=
  {| teams :=
       [{| captain := vObjectID 1 "aa";
           composition :=
             [{| role := "tank";
                 players := [{| user := vObject 2 [("_id", vObjectID 3 "bb");
                                                   ("id", vString "bb")] |}] |}] |};
        {| captain := vObjectID 4 "cc"; composition := [] |}];
     choices :=
       [{| type := "captainPick"; player := vObjectID 1 "aa" |};
        {| type := "playerPick"; player := vObjectID 3 "bb" |};
        {| type := "playerPick"; player := vString "dd" |}] |}.
End StatsExample.

(** * Proofs *)

(** ** JavaScript sets *)

Section JSSetFacts.
Implicit Types (s l : list userID) (x : userID).

Lemma add_NoDup x s : NoDup s → NoDup (JSSet.add x s).
Proof.
  intros Hs. unfold JSSet.add, JSSet.has. case_bool_decide as Hx; [done|].
  apply NoDup_app. split_and!; [done| |apply NoDup_singleton].
  intros y Hy ->%list_elem_of_singleton. done.
Qed.

Lemma elem_of_add x y s : y ∈ JSSet.add x s ↔ y = x ∨ y ∈ s.
Proof.
  unfold JSSet.add, JSSet.has. case_bool_decide as Hx.
  - split; [auto|]. intros [->|]; done.
  - rewrite elem_of_app, list_elem_of_singleton. tauto.
Qed.

Lemma add_idemp x s : JSSet.add x (JSSet.add x s) = JSSet.add x s.
Proof.
  unfold JSSet.add at 1. unfold JSSet.has.
  rewrite bool_decide_eq_true_2; [done|]. apply elem_of_add. by left.
Qed.

Lemma delete_NoDup x s : NoDup s → NoDup (JSSet.delete x s).
Proof. apply NoDup_filter. Qed.

Lemma elem_of_delete x y s : y ∈ JSSet.delete x s ↔ y ≠ x ∧ y ∈ s.
Proof. unfold JSSet.delete. by rewrite list_elem_of_filter. Qed.

Lemma delete_idemp x s : JSSet.delete x (JSSet.delete x s) = JSSet.delete x s.
Proof.
  unfold JSSet.delete. by apply list_filter_filter_l.
Qed.

Lemma fold_add_spec l s :
  NoDup s →
  NoDup (fold_left (λ s x, JSSet.add x s) l s)
  ∧ ∀ y, y ∈ fold_left (λ s x, JSSet.add x s) l s ↔ y ∈ s ∨ y ∈ l.
Proof.
  revert s. induction l as [|x l IH]; intros s Hs; simpl.
  - split; [done|]. intros y. rewrite elem_of_nil. tauto.
  - destruct (IH (JSSet.add x s) (add_NoDup x s Hs)) as [Hnd Hel].
    split; [done|]. intros y. rewrite Hel, elem_of_add, elem_of_cons. tauto.
Qed.

Lemma from_list_NoDup l : NoDup (JSSet.from_list l).
Proof. apply fold_add_spec, NoDup_nil_2. Qed.

Lemma elem_of_from_list l y : y ∈ JSSet.from_list l ↔ y ∈ l.
Proof.
  unfold JSSet.from_list.
  destruct (fold_add_spec l JSSet.empty (NoDup_nil_2)) as [_ ->].
  unfold JSSet.empty. rewrite elem_of_nil. tauto.
Qed.

Lemma from_list_to_set l :
  list_to_set (C := gset userID) (JSSet.from_list l) = list_to_set l.
Proof. apply set_eq. intros y. rewrite !elem_of_list_to_set. apply elem_of_from_list. Qed.

Lemma size_from_list l :
  JSSet.size (JSSet.from_list l) = Z.of_nat (size (list_to_set (C := gset userID) l)).
Proof.
  unfold JSSet.size. rewrite <- from_list_to_set.
  by rewrite size_list_to_set by apply from_list_NoDup.
Qed.

Lemma size_NoDup s :
  NoDup s → JSSet.size s = Z.of_nat (size (list_to_set (C := gset userID) s)).
Proof. intros Hs. unfold JSSet.size. by rewrite size_list_to_set. Qed.

Lemma uniq_from_list l : lodash.uniq l = JSSet.from_list l.
Proof. reflexivity. Qed.

Lemma elem_of_lodash_intersection a b y : y ∈ lodash.intersection a b ↔ y ∈ a ∧ y ∈ b.
Proof.
  unfold lodash.intersection. rewrite uniq_from_list, elem_of_from_list.
  rewrite list_elem_of_filter. tauto.
Qed.
End JSSetFacts.

(** ** Objects *)

Lemma get_is_Some {A} (o : object A) (k : string) :
  is_Some (get o k) ↔ k ∈ lodash.keys o.
Proof.
  unfold lodash.keys. induction o as [|[k' v] o IH]; simpl.
  - rewrite elem_of_nil. split; [intros [? [=]]|done].
  - rewrite elem_of_cons. case_decide as Hk; subst.
    + split; [by left|eauto].
    + rewrite IH. split; [auto|]. intros [?|?]; [congruence|done].
Qed.

Lemma keys_mapValues {A B} (o : object A) (f : A → B) :
  lodash.keys (lodash.mapValues o f) = lodash.keys o.
Proof.
  unfold lodash.keys, lodash.mapValues. rewrite <- list_fmap_compose.
  by apply list_fmap_ext.
Qed.

Lemma get_mapValues {A B} (o : object A) (f : A → B) (k : string) :
  get (lodash.mapValues o f) k = f <$> get o k.
Proof.
  unfold lodash.mapValues. induction o as [|[k' v] o IH]; simpl; [done|].
  by case_decide.
Qed.

(** ** The error monad *)

Lemma foldM_app {A B} (f : B → A → result B) (l1 l2 : list A) (b : B) :
  foldM f (l1 ++ l2) b = foldM f l1 b ≫= foldM f l2.
Proof.
  revert b. induction l1 as [|x l1 IH]; intros b; simpl; [done|].
  destruct (f b x) as [b'|e]; simpl; [apply IH|done].
Qed.

Lemma foldM_Ok_elem {A B} (f : B → A → result B) (l : list A) (b b' : B) (x : A) :
  foldM f l b = Ok b' → x ∈ l → ∃ b1 b2, f b1 x = Ok b2.
Proof.
  revert b. induction l as [|y l IH]; intros b Hf Hx.
  - by apply elem_of_nil in Hx.
  - simpl in Hf. destruct (f b y) as [b1|e] eqn:Hy; simpl in Hf; [|done].
    apply elem_of_cons in Hx as [->|Hx]; eauto.
Qed.

(** ** Combinations *)

Lemma elem_of_comb_rev {A} (rl : list A) (k : nat) (c : list A) :
  c ∈ comb_rev rl k ↔ c `sublist_of` rev rl ∧ length c = k.
Proof.
  revert k c. induction rl as [|x rl IH]; intros k c.
  - destruct k as [|k]; simpl.
    + rewrite list_elem_of_singleton, sublist_nil_r.
      split; [by intros ->|by intros [-> _]].
    + rewrite elem_of_nil, sublist_nil_r. split; [done|]. by intros [-> ?].
  - destruct k as [|k]; cbn [comb_rev rev].
    + rewrite list_elem_of_singleton. split; [intros ->; split; [apply sublist_nil_l|done]|].
      intros [_ Hc]. by destruct c.
    + rewrite elem_of_app, list_elem_of_fmap, IH, sublist_app_r. split.
      * intros [[Hs Hl]|(c' & -> & [Hs Hl]%IH)].
        -- split; [|done]. exists c, []. rewrite app_nil_r.
           split_and!; [done..|apply sublist_nil_l].
        -- split; [|rewrite length_app; simpl; lia]. by exists c', [x].
      * intros [(c1 & c2 & -> & Hs1 & Hs2) Hl].
        apply sublist_cons_r in Hs2 as [->%sublist_nil_r|(c2' & -> & ->%sublist_nil_r)].
        -- left. rewrite app_nil_r in *. done.
        -- right. exists c1. split; [done|]. apply IH. split; [done|].
           rewrite length_app in Hl. simpl in Hl. lia.
Qed.

Lemma combination_Ok {A} (ary : list A) (k : nat) :
  (1 ≤ k ≤ length ary)%nat → combination ary k = Ok (comb_rev (rev ary) k).
Proof.
  intros Hk. unfold combination.
  rewrite (decide_False (P := k = 0%nat)) by lia.
  rewrite (decide_False (P := (k < 1)%nat)) by lia.
  by rewrite decide_False by lia.
Qed.

Lemma elem_of_examined (roleNames c : list string) :
  c ∈ examined roleNames ↔ c ≠ [] ∧ c `sublist_of` roleNames.
Proof.
  unfold examined. rewrite list_elem_of_bind. split.
  - intros (k & Hc & Hk). apply elem_of_seq in Hk.
    apply elem_of_comb_rev in Hc as [Hs Hl]. rewrite rev_involutive in Hs.
    split; [|done]. intros ->. simpl in Hl. lia.
  - intros [Hne Hs]. exists (length c). split.
    + apply elem_of_comb_rev. by rewrite rev_involutive.
    + apply elem_of_seq. apply sublist_length in Hs. destruct c; [done|]. simpl in *. lia.
Qed.

(** ** The calculator *)

Section CalculatorFacts.
Variable rolesConfig : object roleDescriptor.
Implicit Types (pools : object JSSet.t) (c : list string).

Lemma addRole_Ok pools current role pool descriptor :
  get pools role = Some pool → get rolesConfig role = Some descriptor →
  addRole rolesConfig pools current role
  = Ok {| available := JSSet.from_list (available current ++ pool);
          required := required current + min descriptor * 2 |}.
Proof. intros Hp Hr. unfold addRole. by rewrite Hp, Hr. Qed.

Lemma addRole_Ok_inv pools current role info :
  addRole rolesConfig pools current role = Ok info → is_Some (get pools role).
Proof. unfold addRole. destruct (get pools role); [eauto|done]. Qed.

(** The reduction of a combination whose roles all have a pool and a
    descriptor: the distinct users of the pools, and the summed
    requirement. *)
Lemma foldM_addRole pools c current :
  Forall (λ role, is_Some (get pools role) ∧ is_Some (get rolesConfig role)) c →
  ∃ info,
    foldM (addRole rolesConfig pools) c current = Ok info
    ∧ (NoDup (available current) ∨ c ≠ [] → NoDup (available info))
    ∧ list_to_set (C := gset userID) (available info)
      = list_to_set (available current) ∪ ⋃ (poolOf pools <$> c)
    ∧ required info = required current + requiredFor rolesConfig c.
Proof.
  intros Hc. revert current. induction Hc as [|role c [[pool Hp] [d Hd]] _ IH];
    intros current; simpl.
  - exists current. split_and!; [done|by intros [?|?]|set_solver|lia].
  - rewrite (addRole_Ok _ _ _ _ _ Hp Hd). simpl.
    destruct (IH {| available := JSSet.from_list (available current ++ pool);
                    required := required current + min d * 2 |})
      as (info & -> & Hnd & Hset & Hreq).
    exists info. simpl in *. split_and!; [done| | |].
    + intros _. apply Hnd. left. apply from_list_NoDup.
    + rewrite Hset, from_list_to_set, list_to_set_app_L.
      unfold poolOf at 2. rewrite Hp. simpl. set_solver.
    + rewrite Hreq. unfold minimumPerTeam. rewrite Hd. simpl. lia.
Qed.

Lemma covered_sublist pools c :
  covers rolesConfig pools → c `sublist_of` lodash.keys rolesConfig →
  Forall (λ role, is_Some (get pools role) ∧ is_Some (get rolesConfig role)) c.
Proof.
  intros Hcov Hs. apply Forall_forall. intros role Hr.
  assert (role ∈ lodash.keys rolesConfig) as Hin.
  { eapply sublist_submseteq, elem_of_submseteq in Hs; eauto. }
  split; [|by apply get_is_Some].
  unfold covers in Hcov. rewrite Forall_forall in Hcov. by apply Hcov.
Qed.

Lemma checkCombination_Ok pools c neededCombinations :
  c ≠ [] →
  Forall (λ role, is_Some (get pools role) ∧ is_Some (get rolesConfig role)) c →
  checkCombination rolesConfig pools neededCombinations c
  = Ok (neededCombinations ++ deficitOf rolesConfig pools c).
Proof.
  intros Hne Hc. unfold checkCombination.
  destruct (foldM_addRole pools c {| available := JSSet.empty; required := 0 |} Hc)
    as (info & -> & Hnd & Hset & Hreq). simpl in *.
  assert (JSSet.size (available info) = unionSize (poolOf pools) c) as ->.
  { rewrite size_NoDup by auto. unfold unionSize. rewrite Hset.
    unfold JSSet.empty. do 2 f_equal. set_solver. }
  rewrite Hreq, Z.add_0_l. unfold deficitOf.
  case_decide; [done|]. by rewrite app_nil_r.
Qed.

Lemma foldM_checkCombination pools (combinations : list (list string)) neededCombinations :
  Forall (λ c, c ≠ [] ∧ c `sublist_of` lodash.keys rolesConfig) combinations →
  covers rolesConfig pools →
  foldM (checkCombination rolesConfig pools) combinations neededCombinations
  = Ok (neededCombinations ++ (combinations ≫= deficitOf rolesConfig pools)).
Proof.
  intros Hcs Hcov. revert neededCombinations.
  induction Hcs as [|c cs [Hne Hs] _ IH]; intros nd; simpl.
  - by rewrite app_nil_r.
  - rewrite checkCombination_Ok by eauto using covered_sublist. simpl.
    rewrite IH. by rewrite <- (assoc_L (++)).
Qed.

Lemma comb_rev_keys k :
  (1 ≤ k)%nat →
  Forall (λ c, c ≠ [] ∧ c `sublist_of` lodash.keys rolesConfig)
         (comb_rev (rev (lodash.keys rolesConfig)) k).
Proof.
  intros Hk. apply Forall_forall. intros c [Hs Hl]%elem_of_comb_rev.
  rewrite rev_involutive in Hs. split; [|done]. intros ->. simpl in Hl. lia.
Qed.

Lemma foldM_sizes pools (start count : nat) neededCombinations :
  (1 ≤ start)%nat → (start + count ≤ S (length rolesConfig))%nat →
  covers rolesConfig pools →
  foldM (λ neededCombinations k,
           combinations ← combination (lodash.keys rolesConfig) k;
           foldM (checkCombination rolesConfig pools) combinations neededCombinations)
        (seq start count) neededCombinations
  = Ok (neededCombinations
        ++ ((seq start count ≫= λ k, comb_rev (rev (lodash.keys rolesConfig)) k)
              ≫= deficitOf rolesConfig pools)).
Proof.
  intros Hstart Hend Hcov. revert start neededCombinations Hstart Hend.
  induction count as [|count IH]; intros start nd Hstart Hend; simpl.
  - by rewrite app_nil_r.
  - rewrite combination_Ok by (unfold lodash.keys; rewrite length_fmap; lia). simpl.
    rewrite foldM_checkCombination by auto using comb_rev_keys. simpl.
    rewrite IH by lia. by rewrite bind_app, (assoc_L (++)).
Qed.

(** With a pool for every role the calculator returns, and returns the
    deficits of the examined combinations in order. *)
Lemma calculateRolesNeeded_Ok pools :
  covers rolesConfig pools →
  calculateRolesNeeded rolesConfig pools = Ok (deficits rolesConfig pools).
Proof.
  intros Hcov. unfold calculateRolesNeeded.
  rewrite foldM_sizes by (done || lia). simpl.
  unfold deficits, examined, lodash.keys. by rewrite length_fmap.
Qed.

(** Without a pool for some role it throws: the size-1 combination of that
    role is examined. *)
Lemma calculateRolesNeeded_Ok_covers pools out :
  calculateRolesNeeded rolesConfig pools = Ok out → covers rolesConfig pools.
Proof.
  intros Hout. apply Forall_forall. intros role Hrole.
  unfold calculateRolesNeeded in Hout.
  assert (1 ∈ seq 1 (length rolesConfig))%nat as H1.
  { apply elem_of_seq. unfold lodash.keys in Hrole.
    apply list_elem_of_fmap in Hrole as ([? ?] & _ & Hin).
    destruct rolesConfig; [by apply elem_of_nil in Hin|simpl; lia]. }
  destruct (foldM_Ok_elem _ _ _ _ _ Hout H1) as (nd1 & nd2 & Hstep).
  rewrite combination_Ok in Hstep; cycle 1.
  { unfold lodash.keys. rewrite length_fmap.
    apply elem_of_seq in H1. lia. }
  simpl in Hstep.
  assert ([role] ∈ comb_rev (rev (lodash.keys rolesConfig)) 1) as Hc.
  { apply elem_of_comb_rev. rewrite rev_involutive. split; [|done].
    by apply singleton_sublist_l. }
  destruct (foldM_Ok_elem _ _ _ _ _ Hstep Hc) as (nd3 & nd4 & Hcheck).
  unfold checkCombination in Hcheck. simpl in Hcheck.
  destruct (addRole _ _ _ role) as [info|e] eqn:Hadd; [|done].
  by apply addRole_Ok_inv in Hadd.
Qed.

Lemma elem_of_deficits pools subset shortfall :
  {| roles := subset; needed := shortfall |} ∈ deficits rolesConfig pools
  ↔ subset ≠ [] ∧ subset `sublist_of` lodash.keys rolesConfig
    ∧ unionSize (poolOf pools) subset < requiredFor rolesConfig subset
    ∧ shortfall = requiredFor rolesConfig subset - unionSize (poolOf pools) subset.
Proof.
  unfold deficits. rewrite list_elem_of_bind. split.
  - intros (c & Hin & [Hne Hs]%elem_of_examined). unfold deficitOf in Hin.
    case_decide as Hm; [|by apply elem_of_nil in Hin].
    apply list_elem_of_singleton in Hin. injection Hin as -> ->.
    split_and!; [done|done|lia|done].
  - intros (Hne & Hs & Hlt & ->). exists subset. split; [|by apply elem_of_examined].
    unfold deficitOf. rewrite decide_True by lia. by apply list_elem_of_singleton.
Qed.

Lemma deficits_nil pools :
  deficits rolesConfig pools = []
  ↔ ∀ c, c ≠ [] → c `sublist_of` lodash.keys rolesConfig →
         requiredFor rolesConfig c ≤ unionSize (poolOf pools) c.
Proof.
  split.
  - intros Hnil c Hne Hs.
    destruct (decide (unionSize (poolOf pools) c < requiredFor rolesConfig c)) as [Hlt|]; [|lia].
    assert ({| roles := c;
               needed := requiredFor rolesConfig c - unionSize (poolOf pools) c |}
            ∈ deficits rolesConfig pools) as Hin by by apply elem_of_deficits.
    rewrite Hnil in Hin. by apply elem_of_nil in Hin.
  - intros Hall. destruct (deficits rolesConfig pools) as [|[c m] out] eqn:Hd; [done|].
    assert ({| roles := c; needed := m |} ∈ deficits rolesConfig pools) as Hin
      by (rewrite Hd; left).
    apply elem_of_deficits in Hin as (Hne & Hs & Hlt & _).
    specialize (Hall c Hne Hs). lia.
Qed.
End CalculatorFacts.

(** ** Counting the examined combinations *)






Lemma comb_rev_too_many {A} (rl : list A) (k : nat) :
  (length rl < k)%nat → comb_rev rl k = [].
Proof.
  revert k. induction rl as [|x rl IH]; intros [|k] Hk; simpl in *; try lia; [done|].
  by rewrite !IH by lia.
Qed.



(** ** The launch conditions *)


Lemma compact_tags (conditions : list launchCondition) :
  storedConditions [conditions] = conditions.
Proof.
  unfold storedConditions, lodash.flatten, compact. simpl. rewrite app_nil_r.
  induction conditions as [|c cs IH]; [done|].
  rewrite filter_cons_True by by destruct c. by rewrite IH.
Qed.

Lemma covers_mapValues rolesConfig (pools : object JSSet.t) (f : JSSet.t → JSSet.t) :
  covers rolesConfig (lodash.mapValues pools f) ↔ covers rolesConfig pools.
Proof.
  unfold covers. rewrite !Forall_forall.
  by setoid_rewrite get_is_Some; setoid_rewrite keys_mapValues.
Qed.

Lemma readyOnly_NoDup (readies available : JSSet.t) : NoDup (readyOnly readies available).
Proof. apply from_list_NoDup. Qed.

Lemma elem_of_readyOnly (readies available : JSSet.t) (u : userID) :
  u ∈ readyOnly readies available ↔ u ∈ available ∧ u ∈ readies.
Proof.
  unfold readyOnly. etrans; [apply elem_of_from_list|].
  apply elem_of_lodash_intersection.
Qed.

Lemma readyOnly_to_set (readies available : JSSet.t) :
  list_to_set (C := gset userID) (readyOnly readies available)
  = list_to_set available ∩ list_to_set readies.
Proof.
  apply set_eq. intros u.
  by rewrite elem_of_intersection, !elem_of_list_to_set, elem_of_readyOnly.
Qed.

Lemma size_readyOnly (readies available : JSSet.t) :
  JSSet.size (readyOnly readies available)
  = Z.of_nat (size (list_to_set (C := gset userID) available ∩ list_to_set readies)).
Proof. by rewrite size_NoDup, readyOnly_to_set by apply readyOnly_NoDup. Qed.

Lemma poolOf_readyOnly (pools : object JSSet.t) (readies : JSSet.t) (role : string) :
  poolOf (lodash.mapValues pools (readyOnly readies)) role
  = poolOf pools role ∩ list_to_set readies.
Proof.
  unfold poolOf. rewrite get_mapValues. destruct (get pools role) as [pool|]; simpl.
  - apply readyOnly_to_set.
  - set_solver.
Qed.


Lemma unionSize_mono (pool1 pool2 : string → gset userID) (c : list string) :
  (∀ role, pool1 role ⊆ pool2 role) → unionSize pool1 c ≤ unionSize pool2 c.
Proof.
  intros Hsub. unfold unionSize. apply inj_le, subseteq_size.
  induction c as [|role c IH]; simpl; [done|].
  specialize (Hsub role). set_solver.
Qed.


Section LaunchConditionFacts.
Variable rolesConfig : object roleDescriptor.
Context {FilteredUser : Type}.
Implicit Types st : lobby FilteredUser.

End LaunchConditionFacts.

Section Monotonicity.
Variable rolesConfig : object roleDescriptor.
Context {FilteredUser : Type}.
Implicit Types st : lobby FilteredUser.

Lemma delete_subseteq (u : userID) (readies : JSSet.t) :
  list_to_set (C := gset userID) (JSSet.delete u readies) ⊆ list_to_set readies.
Proof.
  intros x. rewrite !elem_of_list_to_set, elem_of_delete. tauto.
Qed.

(** More users ready: no fewer ready captains, and no new deficit on
    the intersected pools. *)
Lemma deficits_readyOnly_mono (pools : object JSSet.t) (readies1 readies2 : JSSet.t) :
  list_to_set (C := gset userID) readies1 ⊆ list_to_set readies2 →
  deficits rolesConfig (lodash.mapValues pools (readyOnly readies1)) = [] →
  deficits rolesConfig (lodash.mapValues pools (readyOnly readies2)) = [].
Proof.
  intros Hsub. rewrite !deficits_nil. intros Hall c Hne Hs.
  etrans; [by apply Hall|]. apply unionSize_mono. intros role.
  rewrite !poolOf_readyOnly. set_solver.
Qed.

Lemma size_readyOnly_mono (available readies1 readies2 : JSSet.t) :
  list_to_set (C := gset userID) readies1 ⊆ list_to_set readies2 →
  JSSet.size (readyOnly readies1 available) ≤ JSSet.size (readyOnly readies2 available).
Proof.
  intros Hsub. rewrite !size_readyOnly. apply inj_le, subseteq_size. set_solver.
Qed.

Lemma launchConditionsExecutor_mono st (readies1 readies2 : JSSet.t) conditions1 :
  list_to_set (C := gset userID) readies1 ⊆ list_to_set readies2 →
  launchConditionsExecutor rolesConfig (set_readiesReceived readies1 st) = Ok conditions1 →
  ∃ conditions2,
    launchConditionsExecutor rolesConfig (set_readiesReceived readies2 st) = Ok conditions2
    ∧ (length conditions2 ≤ length conditions1)%nat
    ∧ (conditions1 = [] → conditions2 = []).
Proof.
  intros Hsub. unfold launchConditionsExecutor. simpl.
  destruct (decide (JSSet.size (captainsAvailable st) < 2)) as [|_]; [by eauto|].
  destruct (calculateRolesNeeded rolesConfig (playersAvailable st)) as [rn|e] eqn:Hcalc;
    simpl; [|done].
  apply calculateRolesNeeded_Ok_covers in Hcalc as Hcov.
  destruct (decide (lodash.size rn ≠ 0)) as [|_]; [by eauto|].
  destruct (launchAttemptInProgress st); simpl; [|by eauto].
  rewrite !calculateRolesNeeded_Ok by by apply covers_mapValues. simpl.
  pose proof (size_readyOnly_mono (captainsAvailable st) _ _ Hsub) as Hcap.
  pose proof (deficits_readyOnly_mono (playersAvailable st) _ _ Hsub) as Hdef.
  destruct (decide (JSSet.size (readyOnly readies1 (captainsAvailable st)) < 2)) as [|H1].
  { intros [= <-].
    destruct (decide (JSSet.size (readyOnly readies2 (captainsAvailable st)) < 2));
      [by eauto|].
    case_decide; eexists; (split; [done|]); simpl; split; (lia || done). }
  destruct (decide (lodash.size (deficits rolesConfig
              (lodash.mapValues (playersAvailable st) (readyOnly readies1))) ≠ 0)) as [|H2].
  { intros [= <-].
    destruct (decide (JSSet.size (readyOnly readies2 (captainsAvailable st)) < 2));
      [by eauto|].
    case_decide; eexists; (split; [done|]); simpl; split; (lia || done). }
  intros [= <-]. exists []. split; [|done].
  rewrite decide_False by lia.
  assert (deficits rolesConfig
            (lodash.mapValues (playersAvailable st) (readyOnly readies1)) = []) as Hnil.
  { destruct (deficits _ (lodash.mapValues _ (readyOnly readies1))); [done|].
    exfalso. apply H2. unfold lodash.size. simpl. lia. }
  rewrite (Hdef Hnil). done.
Qed.
End Monotonicity.

(** ** Running the module's computations *)

Section Runs.
Variable rolesConfig : object roleDescriptor.
Context {FilteredUser : Type}.
Variable getFilteredUser : userID → FilteredUser.
Implicit Types st : lobby FilteredUser.

Local Ltac run := unfold mbind, M_bind, bind, read, write, emit, lift, throw, ret; simpl.

Lemma prepareStatusMessage_run st :
  covers rolesConfig (playersAvailable st) →
  prepareStatusMessage rolesConfig getFilteredUser st
  = (Ok tt,
     set_currentStatusMessage (Some (statusOf rolesConfig getFilteredUser st)) st, []).
Proof.
  intros Hcov. unfold prepareStatusMessage. run.
  by rewrite (calculateRolesNeeded_Ok _ _ Hcov).
Qed.

Lemma attemptLaunch_open st :
  launchAttemptInProgress st = true → covers rolesConfig (playersAvailable st) →
  attemptLaunch rolesConfig getFilteredUser st
  = (Ok tt,
     set_currentStatusMessage (Some (statusOf rolesConfig getFilteredUser st)) st,
     [io_launchStatusUpdated (Some (statusOf rolesConfig getFilteredUser st))]).
Proof.
  intros Hopen Hcov. unfold attemptLaunch, broadcastStatus. run. rewrite Hopen.
  rewrite (prepareStatusMessage_run _ Hcov). done.
Qed.

Lemma attemptLaunch_idle st :
  launchAttemptInProgress st = false →
  attemptLaunch rolesConfig getFilteredUser st
  = (Ok tt,
     set_jobs (jobs st ++ [match launchConditionsExecutor rolesConfig st with
                           | Ok conditions => allElementResolved conditions afterLaunchCheck
                           | Throw e => rejected e
                           end]) st,
     []).
Proof.
  intros Hidle. unfold attemptLaunch, checkLaunchConditions, enqueue. run. rewrite Hidle.
  by destruct (launchConditionsExecutor rolesConfig st).
Qed.

Lemma onLaunchChecked_run st :
  covers rolesConfig (playersAvailable st) →
  onLaunchChecked rolesConfig getFilteredUser st
  = let msg := Some (statusOf rolesConfig getFilteredUser st) in
    let st1 := set_currentStatusMessage msg st in
    if decide (opens (missingLaunchConditions st))
    then (Ok tt,
          set_timers (S (timers st))
            (set_readiesReceived JSSet.empty (set_launchAttemptInProgress true st1)),
          [io_launchStatusUpdated msg; io_launchInProgress])
    else (Ok tt, st1, [io_launchStatusUpdated msg]).
Proof.
  intros Hcov. unfold onLaunchChecked, broadcastStatus, setTimeout, opens. run.
  rewrite (prepareStatusMessage_run _ Hcov). simpl.
  by case_decide.
Qed.

Lemma onReadyPeriodChecked_run st :
  covers rolesConfig (playersAvailable st) →
  onReadyPeriodChecked rolesConfig getFilteredUser st
  = let st1 := set_captainsAvailable (readyOnly (readiesReceived st) (captainsAvailable st))
                 (set_playersAvailable
                    (lodash.mapValues (playersAvailable st) (readyOnly (readiesReceived st)))
                    st) in
    let msg := Some (statusOf rolesConfig getFilteredUser st1) in
    let st2 := set_currentStatusMessage msg st1 in
    if decide (lodash.size (default [] (missingLaunchConditions st)) = 0)
    then (Throw TypeError, st2, [io_launchStatusUpdated msg])
    else (Ok tt, st2, [io_launchStatusUpdated msg; io_launchAborted]).
Proof.
  intros Hcov. unfold onReadyPeriodChecked, broadcastStatus. run.
  rewrite prepareStatusMessage_run by (simpl; by apply covers_mapValues). simpl.
  by case_decide.
Qed.

Lemma updateUserReadyStatus_run (info : readyInfo) st :
  updateUserReadyStatus info st
  = (Ok tt,
     (if launchAttemptInProgress st
      then set_readiesReceived
             (if ri_ready info then JSSet.add (ri_userID info) (readiesReceived st)
              else JSSet.delete (ri_userID info) (readiesReceived st)) st
      else st),
     [sendUserReadyStatusUpdated (ri_userID info) (ri_ready info)]).
Proof.
  unfold updateUserReadyStatus. run.
  destruct (launchAttemptInProgress st); [|done]. by destruct (ri_ready info).
Qed.

Lemma applyAvailability_run (userRestrictions : restrictions) (a : availability) st :
  applyAvailability userRestrictions a st
  = (Ok tt,
     (let reg := spec_updateAvailability (av_userID a) (av_roles a) (av_captain a)
                   (aspects userRestrictions) (registry st) in
      set_captainsAvailable reg.2 (set_playersAvailable reg.1 st)),
     []).
Proof.
  unfold applyAvailability, spec_updateAvailability, lodash.includes. run.
  destruct (bool_decide ("start" ∈ aspects userRestrictions)); simpl; [done|].
  assert (∀ pools : object JSSet.t,
            ((λ entry : string * JSSet.t,
                let (role, players) := entry in
                (role, if bool_decide (role ∈ av_roles a)
                       then JSSet.add (av_userID a) players
                       else JSSet.delete (av_userID a) players)) <$> pools)
            = ((λ entry : string * JSSet.t,
                  (entry.1, if bool_decide (entry.1 ∈ av_roles a)
                            then JSSet.add (av_userID a) entry.2
                            else JSSet.delete (av_userID a) entry.2)) <$> pools)) as ->.
  { intros pools. apply list_fmap_ext. by intros _ [role players] _. }
  destruct (bool_decide ("captain" ∈ aspects userRestrictions)); simpl; [done|].
  by destruct (av_captain a).
Qed.

Lemma launchConditionsExecutor_total st :
  covers rolesConfig (playersAvailable st) →
  ∃ conditions, launchConditionsExecutor rolesConfig st = Ok conditions.
Proof.
  intros Hcov. unfold launchConditionsExecutor.
  case_decide; [by eauto|]. rewrite (calculateRolesNeeded_Ok _ _ Hcov). simpl.
  case_decide; [by eauto|]. destruct (launchAttemptInProgress st); simpl; [|by eauto].
  case_decide; [by eauto|].
  rewrite calculateRolesNeeded_Ok by by apply covers_mapValues. simpl.
  case_decide; by eauto.
Qed.

(** *** The job queue *)

Lemma drain_nil st : jobs st = [] → drain rolesConfig getFilteredUser st = (st, []).
Proof. intros Hq. unfold drain. by rewrite Hq. Qed.

Lemma runJobs_done st : runJobs rolesConfig getFilteredUser 0 st = (st, []).
Proof. done. Qed.

Lemma runJobs_step fuel st j queue :
  jobs st = j :: queue →
  runJobs rolesConfig getFilteredUser (S fuel) st
  = let '(r, st', tr) := runJob rolesConfig getFilteredUser j (set_jobs queue st) in
    let '(st'', tr'') := runJobs rolesConfig getFilteredUser fuel st' in
    (st'', match r with
           | Ok _ => tr
           | Throw e => tr ++ [unhandledRejection e]
           end ++ tr'').
Proof. intros Hq. cbn [runJobs]. by rewrite Hq. Qed.

#[local] Arguments runJobs : simpl never.
#[local] Arguments runJob : simpl never.

(** A lone check runs to its continuation in three jobs. *)
Lemma drain_check st conditions k :
  jobs st = [allElementResolved conditions k] →
  drain rolesConfig getFilteredUser st
  = let '(r, st', tr) := runJob rolesConfig getFilteredUser (thenContinue k)
                           (afterStore conditions st) in
    (st', match r with
          | Ok _ => tr
          | Throw e => tr ++ [unhandledRejection e]
          end).
Proof.
  intros Hq.
  destruct (runJob _ _ (thenContinue k) (afterStore conditions st)) as [[r st'] tr] eqn:Hrun.
  unfold drain. rewrite Hq.
  change (sum_list (jobWeight <$> [allElementResolved conditions k])) with 3%nat.
  rewrite (runJobs_step _ _ _ _ Hq). unfold runJob at 1, enqueue. run.
  erewrite runJobs_step by reflexivity. unfold runJob at 1, enqueue. run.
  erewrite runJobs_step by reflexivity. rewrite compact_tags.
  match goal with
  | |- context [runJob _ _ (thenContinue k) ?s] => change s with (afterStore conditions st)
  end.
  rewrite Hrun, runJobs_done. by rewrite app_nil_r.
Qed.
End Runs.

(** ** Turns of the event loop *)

Section Turns.
Variable rolesConfig : object roleDescriptor.
Context {FilteredUser : Type}.
Variable getFilteredUser : userID → FilteredUser.
Implicit Types st : lobby FilteredUser.

Local Ltac run := unfold mbind, M_bind, bind, read, write, emit, lift, throw, ret; simpl.

Lemma updated_covers userRestrictions a st :
  covers rolesConfig (playersAvailable st) →
  covers rolesConfig (playersAvailable (updated userRestrictions a st)).
Proof.
  unfold covers. rewrite !Forall_forall. setoid_rewrite get_is_Some.
  intros Hcov role Hrole. specialize (Hcov role Hrole).
  unfold updated, spec_updateAvailability, registry. simpl.
  case_bool_decide; simpl.
  - by rewrite keys_mapValues.
  - unfold lodash.keys in *. by rewrite <- list_fmap_compose.
Qed.

Lemma updated_NoDup userRestrictions a st :
  NoDup (captainsAvailable st) → NoDup (captainsAvailable (updated userRestrictions a st)).
Proof.
  intros Hnd. unfold updated, spec_updateAvailability, registry. simpl.
  repeat case_bool_decide; simpl; try destruct (av_captain a);
    auto using add_NoDup, delete_NoDup.
Qed.

Lemma drain_launchCheck st conditions :
  jobs st = [allElementResolved conditions afterLaunchCheck] →
  covers rolesConfig (playersAvailable st) →
  drain rolesConfig getFilteredUser st
  = let st0 := afterStore conditions st in
    let msg := Some (statusOf rolesConfig getFilteredUser st0) in
    let st1 := set_currentStatusMessage msg st0 in
    if decide (opens (Some conditions))
    then (set_timers (S (timers st))
            (set_readiesReceived JSSet.empty (set_launchAttemptInProgress true st1)),
          [io_launchStatusUpdated msg; io_launchInProgress])
    else (st1, [io_launchStatusUpdated msg]).
Proof.
  intros Hq Hcov. rewrite (drain_check _ _ _ _ _ Hq). unfold runJob.
  rewrite onLaunchChecked_run by done. simpl. by case_decide.
Qed.

Lemma drain_readyCheck st conditions :
  jobs st = [allElementResolved conditions afterReadyPeriod] →
  covers rolesConfig (playersAvailable st) →
  drain rolesConfig getFilteredUser st
  = let st0 := afterStore conditions st in
    let st1 := set_captainsAvailable (readyOnly (readiesReceived st) (captainsAvailable st))
                 (set_playersAvailable
                    (lodash.mapValues (playersAvailable st) (readyOnly (readiesReceived st)))
                    st0) in
    let msg := Some (statusOf rolesConfig getFilteredUser st1) in
    (set_currentStatusMessage msg st1,
     io_launchStatusUpdated msg
     :: if decide (lodash.size conditions = 0)
        then [unhandledRejection TypeError] else [io_launchAborted]).
Proof.
  intros Hq Hcov. rewrite (drain_check _ _ _ _ _ Hq). unfold runJob.
  rewrite onReadyPeriodChecked_run by done. simpl. by case_decide.
Qed.

Lemma dispatch_readyStatusChanged (info : readyInfo) st :
  jobs st = [] →
  dispatch rolesConfig getFilteredUser (readyStatusChanged info) st
  = (Ok tt,
     (if launchAttemptInProgress st
      then set_readiesReceived
             (if ri_ready info then JSSet.add (ri_userID info) (readiesReceived st)
              else JSSet.delete (ri_userID info) (readiesReceived st)) st
      else st),
     [sendUserReadyStatusUpdated (ri_userID info) (ri_ready info)]).
Proof.
  intros Hq. unfold dispatch, turn, handle. rewrite updateUserReadyStatus_run.
  rewrite drain_nil; [done|]. by destruct (launchAttemptInProgress st).
Qed.

(** The turn of [attemptLaunch] itself, from a state with nothing queued. *)
Lemma turn_attemptLaunch st :
  jobs st = [] → covers rolesConfig (playersAvailable st) →
  ∃ conditions,
    launchConditionsExecutor rolesConfig st = Ok conditions
    ∧ turn rolesConfig getFilteredUser (attemptLaunch rolesConfig getFilteredUser) st
      = if launchAttemptInProgress st
        then (Ok tt,
              set_currentStatusMessage (Some (statusOf rolesConfig getFilteredUser st)) st,
              [io_launchStatusUpdated (Some (statusOf rolesConfig getFilteredUser st))])
        else
          let st0 := set_missingLaunchConditions (Some conditions) st in
          let msg := Some (statusOf rolesConfig getFilteredUser st0) in
          let st1 := set_currentStatusMessage msg st0 in
          if decide (opens (Some conditions))
          then (Ok tt,
                set_timers (S (timers st))
                  (set_readiesReceived JSSet.empty (set_launchAttemptInProgress true st1)),
                [io_launchStatusUpdated msg; io_launchInProgress])
          else (Ok tt, st1, [io_launchStatusUpdated msg]).
Proof.
  intros Hq Hcov.
  destruct (launchConditionsExecutor_total rolesConfig st Hcov) as [conditions Hex].
  exists conditions. split; [done|]. unfold turn.
  destruct (launchAttemptInProgress st) eqn:Hopen.
  - rewrite attemptLaunch_open by done. rewrite drain_nil by done. done.
  - rewrite attemptLaunch_idle by done. rewrite Hex, Hq. simpl.
    rewrite (drain_launchCheck _ conditions) by done. simpl.
    destruct st; simpl in *; subst. by case_decide.
Qed.
End Turns.

Section Dispatch.
Variable rolesConfig : object roleDescriptor.
Context {FilteredUser : Type}.
Variable getFilteredUser : userID → FilteredUser.
Implicit Types st : lobby FilteredUser.

Local Ltac run := unfold mbind, M_bind, bind, read, write, emit, lift, throw, ret; simpl.

Lemma dispatch_unknown_user allRestrictions (a : availability) st :
  allRestrictions !! av_userID a = None → jobs st = [] →
  dispatch rolesConfig getFilteredUser (availabilityChanged allRestrictions a) st
  = (Throw TypeError, st, []).
Proof.
  intros HR Hq. unfold dispatch, turn, handle, updateUserAvailability. rewrite HR.
  run. by rewrite drain_nil.
Qed.

Lemma updateUserAvailability_run allRestrictions (a : availability) userRestrictions st :
  allRestrictions !! av_userID a = Some userRestrictions →
  updateUserAvailability rolesConfig getFilteredUser allRestrictions a st
  = let st1 := updated userRestrictions a st in
    let '(r, st', tr) := attemptLaunch rolesConfig getFilteredUser st1 in
    (r, st',
     sendUserAvailabilityUpdated (av_userID a)
       (lodash.mapValues (playersAvailable st1) (JSSet.has (av_userID a)))
       (JSSet.has (av_userID a) (captainsAvailable st1)) :: tr).
Proof.
  intros HR. unfold updateUserAvailability. rewrite HR.
  unfold mbind, M_bind, bind, read, emit. rewrite applyAvailability_run.
  fold (updated userRestrictions a st). cbv zeta.
  by destruct (attemptLaunch _ _ _) as [[r st'] tr].
Qed.

Lemma dispatch_availabilityChanged allRestrictions (a : availability) userRestrictions st :
  allRestrictions !! av_userID a = Some userRestrictions →
  jobs st = [] → covers rolesConfig (playersAvailable st) →
  let st1 := updated userRestrictions a st in
  let ack := sendUserAvailabilityUpdated (av_userID a)
               (lodash.mapValues (playersAvailable st1) (JSSet.has (av_userID a)))
               (JSSet.has (av_userID a) (captainsAvailable st1)) in
  ∃ conditions,
    launchConditionsExecutor rolesConfig st1 = Ok conditions
    ∧ dispatch rolesConfig getFilteredUser (availabilityChanged allRestrictions a) st
      = if launchAttemptInProgress st
        then (Ok tt,
              set_currentStatusMessage (Some (statusOf rolesConfig getFilteredUser st1)) st1,
              [ack; io_launchStatusUpdated (Some (statusOf rolesConfig getFilteredUser st1))])
        else
          let st2 := set_missingLaunchConditions (Some conditions) st1 in
          let msg := Some (statusOf rolesConfig getFilteredUser st2) in
          let st3 := set_currentStatusMessage msg st2 in
          if decide (opens (Some conditions))
          then (Ok tt,
                set_timers (S (timers st))
                  (set_readiesReceived JSSet.empty (set_launchAttemptInProgress true st3)),
                [ack; io_launchStatusUpdated msg; io_launchInProgress])
          else (Ok tt, st3, [ack; io_launchStatusUpdated msg]).
Proof.
  intros HR Hq Hcov st1 ack.
  assert (covers rolesConfig (playersAvailable st1)) as Hcov1 by by apply updated_covers.
  destruct (launchConditionsExecutor_total rolesConfig st1 Hcov1) as [conditions Hex].
  exists conditions. split; [done|].
  unfold dispatch, turn, handle. rewrite (updateUserAvailability_run _ _ _ _ HR).
  cbv zeta. fold st1. fold ack.
  change (launchAttemptInProgress st) with (launchAttemptInProgress st1).
  change (timers st) with (timers st1).
  assert (jobs st1 = []) as Hq1 by done.
  clearbody st1 ack.
  destruct (launchAttemptInProgress st1) eqn:Hopen.
  - rewrite attemptLaunch_open by done. by rewrite drain_nil.
  - rewrite attemptLaunch_idle by done. rewrite Hex, Hq1. simpl.
    rewrite (drain_launchCheck _ _ _ conditions) by done. cbv zeta.
    destruct st1; simpl in *; subst. by case_decide.
Qed.

Lemma dispatch_readyPeriodElapsed st :
  jobs st = [] → covers rolesConfig (playersAvailable st) →
  ∃ conditions,
    launchConditionsExecutor rolesConfig st = Ok conditions
    ∧ dispatch rolesConfig getFilteredUser readyPeriodElapsed st
      = let st0 := set_missingLaunchConditions (Some conditions)
                     (set_timers (pred (timers st)) st) in
        let st1 := set_captainsAvailable
                     (readyOnly (readiesReceived st) (captainsAvailable st))
                     (set_playersAvailable
                        (lodash.mapValues (playersAvailable st)
                           (readyOnly (readiesReceived st))) st0) in
        let msg := Some (statusOf rolesConfig getFilteredUser st1) in
        (Ok tt, set_currentStatusMessage msg st1,
         io_launchStatusUpdated msg
         :: if decide (lodash.size conditions = 0)
            then [unhandledRejection TypeError] else [io_launchAborted]).
Proof.
  intros Hq Hcov.
  destruct (launchConditionsExecutor_total rolesConfig st Hcov) as [conditions Hex].
  exists conditions. split; [done|].
  unfold dispatch, turn, handle, onReadyPeriodElapsed, checkLaunchConditions, enqueue.
  unfold mbind, M_bind, bind, read, write. simpl.
  change (launchConditionsExecutor rolesConfig (set_timers (pred (timers st)) st))
    with (launchConditionsExecutor rolesConfig st).
  rewrite Hex. cbn [jobs set_timers]. rewrite Hq. cbn [app].
  rewrite (drain_readyCheck _ _ _ conditions) by done. cbv zeta.
  destruct st; simpl in *; subst. done.
Qed.

Lemma dispatch_disconnected_unknown allRestrictions (u : userID) st :
  allRestrictions !! u = None → jobs st = [] →
  dispatch rolesConfig getFilteredUser (disconnected allRestrictions u) st
  = (Throw TypeError, st, []).
Proof.
  intros HR Hq. unfold dispatch, turn, handle, userDisconnected, updateUserAvailability.
  simpl. rewrite HR. unfold mbind, M_bind, bind, throw. by rewrite drain_nil.
Qed.

Lemma dispatch_disconnected allRestrictions (u : userID) userRestrictions st :
  allRestrictions !! u = Some userRestrictions →
  jobs st = [] → covers rolesConfig (playersAvailable st) →
  let st1 := updated userRestrictions
               {| av_userID := u; av_roles := []; av_captain := false |} st in
  let ack := sendUserAvailabilityUpdated u
               (lodash.mapValues (playersAvailable st1) (JSSet.has u))
               (JSSet.has u (captainsAvailable st1)) in
  let readyAck := sendUserReadyStatusUpdated u false in
  ∃ conditions,
    launchConditionsExecutor rolesConfig st1 = Ok conditions
    ∧ dispatch rolesConfig getFilteredUser (disconnected allRestrictions u) st
      = if launchAttemptInProgress st
        then (Ok tt,
              set_readiesReceived (JSSet.delete u (readiesReceived st))
                (set_currentStatusMessage
                   (Some (statusOf rolesConfig getFilteredUser st1)) st1),
              [ack; io_launchStatusUpdated (Some (statusOf rolesConfig getFilteredUser st1));
               readyAck])
        else
          let st2 := set_missingLaunchConditions (Some conditions) st1 in
          let msg := Some (statusOf rolesConfig getFilteredUser st2) in
          let st3 := set_currentStatusMessage msg st2 in
          if decide (opens (Some conditions))
          then (Ok tt,
                set_timers (S (timers st))
                  (set_readiesReceived JSSet.empty (set_launchAttemptInProgress true st3)),
                [ack; readyAck; io_launchStatusUpdated msg; io_launchInProgress])
          else (Ok tt, st3, [ack; readyAck; io_launchStatusUpdated msg]).
Proof.
  intros HR Hq Hcov st1 ack readyAck.
  assert (covers rolesConfig (playersAvailable st1)) as Hcov1 by by apply updated_covers.
  destruct (launchConditionsExecutor_total rolesConfig st1 Hcov1) as [conditions Hex].
  exists conditions. split; [done|].
  unfold dispatch, turn, handle, userDisconnected.
  unfold mbind, M_bind, bind at 1.
  rewrite (updateUserAvailability_run allRestrictions
             {| av_userID := u; av_roles := []; av_captain := false |} userRestrictions st HR).
  cbv zeta. cbn [av_userID].
  fold st1. fold ack.
  change (launchAttemptInProgress st) with (launchAttemptInProgress st1).
  change (timers st) with (timers st1).
  change (readiesReceived st) with (readiesReceived st1).
  assert (jobs st1 = []) as Hq1 by done.
  clearbody st1 ack.
  destruct (launchAttemptInProgress st1) eqn:Hopen.
  - rewrite attemptLaunch_open by done. rewrite updateUserReadyStatus_run.
    cbn [launchAttemptInProgress set_currentStatusMessage ri_ready ri_userID].
    rewrite Hopen. by rewrite drain_nil.
  - rewrite attemptLaunch_idle by done. rewrite Hex, Hq1. simpl.
    rewrite updateUserReadyStatus_run.
    cbn [launchAttemptInProgress set_jobs ri_ready ri_userID].
    rewrite Hopen.
    rewrite (drain_launchCheck _ _ _ conditions) by done. cbv zeta.
    destruct st1; simpl in *; subst. by case_decide.
Qed.
End Dispatch.

(** ** Reachable states *)

Section Reachable.
Variable rolesConfig : object roleDescriptor.
Context {FilteredUser : Type}.
Variable getFilteredUser : userID → FilteredUser.
Implicit Types st : lobby FilteredUser.

Local Ltac fields :=
  unfold updated in *;
  cbn [captainsAvailable playersAvailable missingLaunchConditions launchAttemptInProgress
       readiesReceived currentStatusMessage jobs timers
       set_captainsAvailable set_playersAvailable set_missingLaunchConditions
       set_launchAttemptInProgress set_readiesReceived set_currentStatusMessage
       set_jobs set_timers fst snd] in *.

Lemma quiescent_intro st :
  NoDup (captainsAvailable st) → covers rolesConfig (playersAvailable st) →
  jobs st = [] →
  (launchAttemptInProgress st = false → readiesReceived st = [] ∧ timers st = 0%nat) →
  (timers st ≤ 1)%nat →
  quiescent rolesConfig st.
Proof. intros Hnd Hcov Hq Hidle Ht. unfold quiescent, wellFormed. tauto. Qed.

Lemma initial_covers : covers rolesConfig (playersAvailable (initial rolesConfig (FilteredUser := FilteredUser))).
Proof.
  unfold covers. apply Forall_forall. intros role Hrole. simpl.
  apply get_is_Some. by rewrite keys_mapValues.
Qed.

Lemma quiescent_startup : quiescent rolesConfig (startup rolesConfig getFilteredUser).1.2.
Proof.
  unfold startup.
  destruct (turn_attemptLaunch rolesConfig getFilteredUser (initial rolesConfig)
              eq_refl initial_covers) as (conditions & _ & ->).
  pose proof initial_covers as Hcov.
  change (launchAttemptInProgress (initial rolesConfig)) with false. cbv iota zeta.
  case_decide; apply quiescent_intro; fields; unfold initial in *; fields;
    try done; try apply NoDup_nil_2; try lia.
Qed.

Lemma quiescent_dispatch st ev :
  quiescent rolesConfig st → enabled ev st →
  quiescent rolesConfig (dispatch rolesConfig getFilteredUser ev st).1.2.
Proof.
  intros Hquiet Hen. pose proof Hquiet as ([Hnd Hcov] & Hq & Hidle & Htimers).
  destruct ev as [allRestrictions a|info|allRestrictions u|].
  - destruct (allRestrictions !! av_userID a) as [userRestrictions|] eqn:HR.
    + destruct (dispatch_availabilityChanged rolesConfig getFilteredUser
                  _ _ _ _ HR Hq Hcov) as (conditions & _ & ->).
      pose proof (updated_covers rolesConfig userRestrictions a st Hcov) as Hcov1.
      pose proof (updated_NoDup userRestrictions a st Hnd) as Hnd1.
      destruct (launchAttemptInProgress st) eqn:Hopen.
      * apply quiescent_intro; fields; try done; try (intros; congruence).
      * specialize (Hidle eq_refl) as [Hr Ht]. cbv zeta.
        case_decide; apply quiescent_intro; fields; try done; try (intros; congruence). lia.
    + by rewrite dispatch_unknown_user.
  - rewrite dispatch_readyStatusChanged by done. fields.
    destruct (launchAttemptInProgress st) eqn:Hopen; [|done].
    apply quiescent_intro; fields; try done; try (intros; congruence).
  - destruct (allRestrictions !! u) as [userRestrictions|] eqn:HR.
    + destruct (dispatch_disconnected rolesConfig getFilteredUser
                  _ _ _ _ HR Hq Hcov) as (conditions & _ & ->).
      pose proof (updated_covers rolesConfig userRestrictions
                    {| av_userID := u; av_roles := []; av_captain := false |} st Hcov)
        as Hcov1.
      pose proof (updated_NoDup userRestrictions
                    {| av_userID := u; av_roles := []; av_captain := false |} st Hnd)
        as Hnd1.
      destruct (launchAttemptInProgress st) eqn:Hopen.
      * apply quiescent_intro; fields; try done; try (intros; congruence).
      * specialize (Hidle eq_refl) as [Hr Ht]. cbv zeta.
        case_decide; apply quiescent_intro; fields; try done; try (intros; congruence). lia.
    + by rewrite dispatch_disconnected_unknown.
  - destruct (dispatch_readyPeriodElapsed rolesConfig getFilteredUser st Hq Hcov)
      as (conditions & _ & ->).
    simpl in Hen. cbv zeta. apply quiescent_intro; fields.
    + apply readyOnly_NoDup.
    + by apply covers_mapValues.
    + done.
    + intros Hidle'. apply Hidle in Hidle'. lia.
    + lia.
Qed.

Lemma reachable_quiescent st :
  reachable rolesConfig getFilteredUser st → quiescent rolesConfig st.
Proof.
  induction 1 as [|st ev _ IH Hen]; [apply quiescent_startup|].
  by apply quiescent_dispatch.
Qed.

Lemma reachable_wellFormed st :
reachable rolesConfig getFilteredUser st → wellFormed rolesConfig st.
Proof. by intros (Hwf & _)%reachable_quiescent. Qed.
End Reachable.

(** * The claims *)

Local Ltac by_computation := apply (bool_decide_unpack _); vm_compute; exact I.

(** ** C1 *)



(** ** C2 *)



(** ** C3 *)

(** Once set, [launchAttemptInProgress] stays set: no turn of the event loop
    assigns [false] to it. *)
Lemma attempt_stays_in_progress (rolesConfig : object roleDescriptor)
    {FilteredUser : Type} (getFilteredUser : userID → FilteredUser)
    (st : lobby FilteredUser) (ev : event) :
  quiescent rolesConfig st → launchAttemptInProgress st = true →
  launchAttemptInProgress (dispatch rolesConfig getFilteredUser ev st).1.2 = true.
Proof.
  intros ([Hnd Hcov] & Hq & _) Hopen.
  destruct ev as [allRestrictions a|info|allRestrictions u|].
  - destruct (allRestrictions !! av_userID a) as [userRestrictions|] eqn:HR.
    + destruct (dispatch_availabilityChanged rolesConfig getFilteredUser
                  _ _ _ _ HR Hq Hcov) as (conditions & _ & ->).
      by rewrite Hopen.
    + by rewrite dispatch_unknown_user.
  - rewrite dispatch_readyStatusChanged by done. by rewrite Hopen.
  - destruct (allRestrictions !! u) as [userRestrictions|] eqn:HR.
    + destruct (dispatch_disconnected rolesConfig getFilteredUser
                  _ _ _ _ HR Hq Hcov) as (conditions & _ & ->).
      by rewrite Hopen.
    + by rewrite dispatch_disconnected_unknown.
  - by destruct (dispatch_readyPeriodElapsed rolesConfig getFilteredUser st Hq Hcov)
      as (conditions & _ & ->).
Qed.

(** C3: the code at the two resolutions.  With only one of the two captains
    ready the window aborts, with everybody ready it reaches the launch
    branch; after either, [launchAttemptInProgress] is still [true], and
    a later availability change opens no window. *)
Theorem readyPeriod_resolution_keeps_attempt_in_progress :
  let aborted := dispatch Example.rolesConfig Example.getFilteredUser
                   readyPeriodElapsed Example.oneCaptainReady in
  let launched := dispatch Example.rolesConfig Example.getFilteredUser
                    readyPeriodElapsed Example.allReady in
  missingLaunchConditions aborted.1.2 = Some [notReady]
  ∧ io_launchAborted ∈ aborted.2
  ∧ launchAttemptInProgress aborted.1.2 = true
  ∧ missingLaunchConditions launched.1.2 = Some []
  ∧ launchAttemptInProgress launched.1.2 = true
  ∧ timers (Example.after [Example.join "A" "tank" true; Example.join "B" "tank" true]
              aborted.1.2) = 0%nat.
Proof.
  vm_compute. split_and!; try reflexivity. apply list_elem_of_In. simpl. auto.
Qed.

(** ** C4 *)

(** No turn emits a roster: the only [launchGameDraft] in the module sits
    behind the spread of [playersAvailable], a plain object. *)
Lemma no_roster_event (rolesConfig : object roleDescriptor)
    {FilteredUser : Type} (getFilteredUser : userID → FilteredUser)
    (st : lobby FilteredUser) (ev : event) :
  quiescent rolesConfig st →
  filter (λ e, isRosterEvent e) (dispatch rolesConfig getFilteredUser ev st).2 = [].
Proof.
  intros ([Hnd Hcov] & Hq & _).
  destruct ev as [allRestrictions a|info|allRestrictions u|].
  - destruct (allRestrictions !! av_userID a) as [userRestrictions|] eqn:HR.
    + destruct (dispatch_availabilityChanged rolesConfig getFilteredUser
                  _ _ _ _ HR Hq Hcov) as (conditions & _ & ->).
      destruct (launchAttemptInProgress st); [done|]. cbv zeta. by case_decide.
    + by rewrite dispatch_unknown_user.
  - by rewrite dispatch_readyStatusChanged.
  - destruct (allRestrictions !! u) as [userRestrictions|] eqn:HR.
    + destruct (dispatch_disconnected rolesConfig getFilteredUser
                  _ _ _ _ HR Hq Hcov) as (conditions & _ & ->).
      destruct (launchAttemptInProgress st); [done|]. cbv zeta. by case_decide.
    + by rewrite dispatch_disconnected_unknown.
  - destruct (dispatch_readyPeriodElapsed rolesConfig getFilteredUser st Hq Hcov)
      as (conditions & _ & ->).
    cbv zeta. cbn [snd]. by case_decide.
Qed.

(** C4: the code at a window that resolves with zero unmet conditions: the
    status is broadcast, the spread of [playersAvailable] throws, and no
    roster event is emitted. *)
Theorem successful_resolution_emits_no_roster :
  let launched := dispatch Example.rolesConfig Example.getFilteredUser
                    readyPeriodElapsed Example.allReady in
  missingLaunchConditions launched.1.2 = Some []
  ∧ spread (ofObject (playersAvailable launched.1.2)) = Throw TypeError
  ∧ filter (λ e, isRosterEvent e) launched.2 = []
  ∧ launched.2 = [io_launchStatusUpdated (currentStatusMessage launched.1.2);
                  unhandledRejection TypeError].
Proof. vm_compute. done. Qed.

(** ** C5 *)



(** ** C6 *)




(** ** C7 *)

(** C7, as stated, fails for a user absent from the restriction map: the
    handler throws on reading [.aspects] of [undefined]. *)
Lemma update_of_unrestricted_unknown_user_throws :
  (updateUserAvailability Example.rolesConfig Example.getFilteredUser ∅
     {| av_userID := "A"; av_roles := ["tank"]; av_captain := true |}
     Example.started).1.1
  = Throw TypeError.
Proof. vm_compute. reflexivity. Qed.

Lemma spec_updateAvailability_idemp (u : userID) (desiredRoles : list string)
    (wantsCaptain : bool) (denied : list string) (reg : object JSSet.t * JSSet.t) :
  spec_updateAvailability u desiredRoles wantsCaptain denied
    (spec_updateAvailability u desiredRoles wantsCaptain denied reg)
  = spec_updateAvailability u desiredRoles wantsCaptain denied reg.
Proof.
  unfold spec_updateAvailability. destruct reg as [pools captains].
  case_bool_decide; simpl.
  - f_equal; [|apply delete_idemp]. unfold lodash.mapValues.
    rewrite <- list_fmap_compose. apply list_fmap_ext. intros _ [role players] _. simpl.
    by rewrite delete_idemp.
  - f_equal.
    + rewrite <- list_fmap_compose. apply list_fmap_ext. intros _ [role players] _. simpl.
      case_bool_decide; by rewrite ?add_idemp, ?delete_idemp.
    + case_bool_decide; [apply delete_idemp|].
      destruct wantsCaptain; [apply add_idemp|apply delete_idemp].
Qed.

(** C7, amended: for a user with an entry in the restriction map (and a
    state with a pool for every role) the availability handler returns without
    throwing, leaves the registry as section 4.2 describes, and handling the
    same event again leaves that registry unchanged. *)
Theorem updateUserAvailability_total_idempotent
    (rolesConfig : object roleDescriptor) {FilteredUser : Type}
    (getFilteredUser : userID → FilteredUser) (st : lobby FilteredUser)
    (allRestrictions : gmap userID restrictions) (a : availability)
    (userRestrictions : restrictions) :
  allRestrictions !! av_userID a = Some userRestrictions →
  covers rolesConfig (playersAvailable st) →
  let once := updateUserAvailability rolesConfig getFilteredUser allRestrictions a st in
  let twice := updateUserAvailability rolesConfig getFilteredUser allRestrictions a once.1.2 in
  once.1.1 = Ok tt
  ∧ registry once.1.2
    = spec_updateAvailability (av_userID a) (av_roles a) (av_captain a)
        (aspects userRestrictions) (registry st)
  ∧ twice.1.1 = Ok tt
  ∧ registry twice.1.2 = registry once.1.2.
Proof.
  intros HR Hcov.
  assert (∀ st0 : lobby FilteredUser,
            covers rolesConfig (playersAvailable st0) →
            let r := updateUserAvailability rolesConfig getFilteredUser allRestrictions a st0 in
            r.1.1 = Ok tt
            ∧ registry r.1.2
              = spec_updateAvailability (av_userID a) (av_roles a) (av_captain a)
                  (aspects userRestrictions) (registry st0)
            ∧ covers rolesConfig (playersAvailable r.1.2)) as Hrun.
  { intros st0 Hcov0 r. subst r. rewrite (updateUserAvailability_run _ _ _ _ _ _ HR).
    cbv zeta.
    pose proof (updated_covers rolesConfig userRestrictions a st0 Hcov0) as Hcov1.
    assert (registry (updated userRestrictions a st0)
            = spec_updateAvailability (av_userID a) (av_roles a) (av_captain a)
                (aspects userRestrictions) (registry st0)) as Hreg1.
    { unfold updated, registry. simpl. by destruct (spec_updateAvailability _ _ _ _ _). }
    destruct (launchAttemptInProgress (updated userRestrictions a st0)) eqn:Hopen.
    - rewrite attemptLaunch_open by done. by split_and!.
    - rewrite attemptLaunch_idle by done. by split_and!. }
  cbv zeta in *. destruct (Hrun st Hcov) as (Hok & Hreg & Hcov1).
  destruct (Hrun _ Hcov1) as (Hok2 & Hreg2 & _).
  split_and!; [done..|].
  rewrite Hreg2, Hreg. apply spec_updateAvailability_idemp.
Qed.

Lemma updateUserAvailability_total_idempotent_witness :
  (updateUserAvailability Example.rolesConfig Example.getFilteredUser
     Example.noRestrictions
     {| av_userID := "A"; av_roles := ["tank"]; av_captain := true |}
     Example.started).1.1
  = Ok tt.
Proof.
  refine (proj1 (updateUserAvailability_total_idempotent
                   Example.rolesConfig Example.getFilteredUser Example.started
                   Example.noRestrictions
                   {| av_userID := "A"; av_roles := ["tank"]; av_captain := true |}
                   {| aspects := [] |} _ _)).
  - vm_compute. reflexivity.
  - unfold covers. by_computation.
Defined.

(** ** C8 *)

(** C8, as stated, fails at the resolution of a window: B was available as
    tank and captain, did not reaffirm readiness, and is in no pool
    afterwards. *)
Lemma resolution_prunes_registry :
  registry (dispatch Example.rolesConfig Example.getFilteredUser
              readyPeriodElapsed Example.oneCaptainReady).1.2
  ≠ registry Example.oneCaptainReady.
Proof. vm_compute. discriminate. Qed.

(** C8, amended: between turns, a turn of [attemptLaunch] (which may open a
    window) and a readiness change leave the role pools and the captain set
    unchanged, and the resolution of a window replaces every pool and the
    captain set by its intersection with the ready registry. *)
Theorem registry_changes_only_by_update_and_resolution
    (rolesConfig : object roleDescriptor) {FilteredUser : Type}
    (getFilteredUser : userID → FilteredUser) (st : lobby FilteredUser) :
  jobs st = [] → covers rolesConfig (playersAvailable st) →
  registry (turn rolesConfig getFilteredUser
              (attemptLaunch rolesConfig getFilteredUser) st).1.2 = registry st
  ∧ (∀ info, registry (dispatch rolesConfig getFilteredUser
                         (readyStatusChanged info) st).1.2 = registry st)
  ∧ registry (dispatch rolesConfig getFilteredUser readyPeriodElapsed st).1.2
    = (lodash.mapValues (playersAvailable st) (readyOnly (readiesReceived st)),
       readyOnly (readiesReceived st) (captainsAvailable st))
  ∧ ∀ pool u,
      pool ∈ (playersAvailable
                (dispatch rolesConfig getFilteredUser readyPeriodElapsed st).1.2).*2 →
      u ∈ pool → u ∈ readiesReceived st.
Proof.
  intros Hq Hcov. split_and!.
  - destruct (turn_attemptLaunch rolesConfig getFilteredUser st Hq Hcov)
      as (conditions & _ & ->).
    destruct (launchAttemptInProgress st); [done|]. cbv zeta. by case_decide.
  - intros info. rewrite dispatch_readyStatusChanged by done.
    by destruct (launchAttemptInProgress st).
  - by destruct (dispatch_readyPeriodElapsed rolesConfig getFilteredUser st Hq Hcov)
      as (conditions & _ & ->).
  - destruct (dispatch_readyPeriodElapsed rolesConfig getFilteredUser st Hq Hcov)
      as (conditions & _ & ->).
    intros pool u. cbn. unfold lodash.mapValues. rewrite <- list_fmap_compose.
    intros ([role available] & -> & _)%list_elem_of_fmap. simpl.
    by intros [_ ?]%elem_of_readyOnly.
Qed.

Lemma registry_changes_only_by_update_and_resolution_witness :
  registry (dispatch Example.rolesConfig Example.getFilteredUser
              readyPeriodElapsed Example.oneCaptainReady).1.2
  = (lodash.mapValues (playersAvailable Example.oneCaptainReady)
       (readyOnly (readiesReceived Example.oneCaptainReady)),
     readyOnly (readiesReceived Example.oneCaptainReady)
       (captainsAvailable Example.oneCaptainReady)).
Proof.
  refine (proj1 (proj2 (proj2 (registry_changes_only_by_update_and_resolution
            Example.rolesConfig Example.getFilteredUser Example.oneCaptainReady _ _)))).
  - vm_compute. reflexivity.
  - unfold covers. by_computation.
Defined.

(** ** C9 *)

(** C9: whatever the state, if the launch conditions evaluated with [u]
    removed from the ready registry are met (the empty list), they are met
    with the registry as it is; more generally the evaluation with the
    registry as it is returns, and returns no more unmet conditions than the
    one without [u]. *)
Theorem unready_never_improves_outcome
    (rolesConfig : object roleDescriptor) {FilteredUser : Type}
    (st : lobby FilteredUser) (u : userID) (without_u : list launchCondition) :
  launchConditionsExecutor rolesConfig
    (set_readiesReceived (JSSet.delete u (readiesReceived st)) st) = Ok without_u →
  ∃ with_u,
    launchConditionsExecutor rolesConfig st = Ok with_u
    ∧ (length with_u ≤ length without_u)%nat
    ∧ (without_u = [] → with_u = []).
Proof.
  intros Hwithout.
  apply (launchConditionsExecutor_mono rolesConfig st _ (readiesReceived st)) in Hwithout;
    [done|apply delete_subseteq].
Qed.

Lemma unready_never_improves_outcome_witness :
  ∃ with_u,
    launchConditionsExecutor Example.rolesConfig Example.bystanderReady = Ok with_u
    ∧ (length with_u ≤ length (@nil launchCondition))%nat
    ∧ (@nil launchCondition = [] → with_u = []).
Proof.
  apply (unready_never_improves_outcome Example.rolesConfig Example.bystanderReady "E" []).
  vm_compute. reflexivity.
Defined.

(** ** C10 *)



(** * Further properties *)

(** ** The calculator *)

Lemma foldM_Throw_elem {A B} (f : B → A → result B) (l : list A) (b : B) (e : jsError) :
  foldM f l b = Throw e → ∃ b1 x, x ∈ l ∧ f b1 x = Throw e.
Proof.
  revert b. induction l as [|y l IH]; intros b Hf; [done|].
  simpl in Hf. destruct (f b y) as [b'|e'] eqn:Hy; simpl in Hf.
  - destruct (IH _ Hf) as (b1 & x & Hx & Hthrow). exists b1, x. split; [by right|done].
  - injection Hf as ->. exists b, y. split; [by left|done].
Qed.

Lemma checkCombination_Throw rolesConfig pools neededCombinations c e :
  checkCombination rolesConfig pools neededCombinations c = Throw e → e = TypeError.
Proof.
  unfold checkCombination.
  destruct (foldM _ c _) as [info|e'] eqn:Hfold; simpl; [by case_decide|].
  intros [= <-]. apply foldM_Throw_elem in Hfold as (current & role & _ & Hadd).
  unfold addRole in Hadd. destruct (get pools role); simpl in Hadd; [|congruence].
  destruct (get rolesConfig role); congruence.
Qed.

(** X1: [calculateRolesNeeded] throws only [TypeError], and it throws
    exactly when a configured role has no pool in the availability mapping;
    the out-of-range error of the combination generator is never reached. *)
Theorem calculateRolesNeeded_throws_iff_pool_missing
    (rolesConfig : object roleDescriptor) (pools : object JSSet.t) :
  (∀ e, calculateRolesNeeded rolesConfig pools = Throw e → e = TypeError)
  ∧ (calculateRolesNeeded rolesConfig pools = Throw TypeError
     ↔ ∃ role, role ∈ lodash.keys rolesConfig ∧ get pools role = None).
Proof.
  assert (∀ e, calculateRolesNeeded rolesConfig pools = Throw e → e = TypeError) as Honly.
  { intros e Hthrow. unfold calculateRolesNeeded in Hthrow.
    apply foldM_Throw_elem in Hthrow as (nd & k & Hk%elem_of_seq & Hstep).
    rewrite combination_Ok in Hstep
      by (unfold lodash.keys; rewrite length_fmap; lia).
    simpl in Hstep. apply foldM_Throw_elem in Hstep as (nd' & c & _ & Hcheck).
    by apply checkCombination_Throw in Hcheck. }
  split; [done|]. split.
  - intros Hthrow.
    destruct (decide (covers rolesConfig pools)) as [Hcov|Hcov].
    { rewrite calculateRolesNeeded_Ok in Hthrow by done. done. }
    apply not_Forall_Exists in Hcov; [|apply _].
    apply Exists_exists in Hcov as (role & Hrole & Hnone).
    exists role. split; [done|]. by apply eq_None_not_Some.
  - intros (role & Hrole & Hnone).
    destruct (calculateRolesNeeded rolesConfig pools) as [out|e] eqn:Hcalc.
    + apply calculateRolesNeeded_Ok_covers in Hcalc.
      unfold covers in Hcalc. rewrite Forall_forall in Hcalc.
      destruct (Hcalc role Hrole) as [pool Hpool]. congruence.
    + by rewrite (Honly e eq_refl).
Qed.

Lemma size_union_list_disjoint (staff : string → gset userID) (c : list string) :
  NoDup c → (∀ role1 role2, role1 ≠ role2 → staff role1 ## staff role2) →
  Z.of_nat (size (⋃ (staff <$> c))) = foldr (λ role total, Z.of_nat (size (staff role)) + total) 0 c.
Proof.
  intros Hnd Hdisj. induction Hnd as [|role c Hnotin Hnd IH]; [done|].
  rewrite fmap_cons, union_list_cons. cbn [foldr].
  rewrite size_union, Nat2Z.inj_add, IH; [done|].
  intros u Hu (X & (role' & -> & Hrole')%list_elem_of_fmap & HuX)%elem_of_union_list.
  assert (role ≠ role') as Hne by by intros ->.
  specialize (Hdisj role role' Hne). set_solver.
Qed.

(** X2: when the teams can be staffed from the pools (distinct users for
    every role, at least [min * 2] per role) the calculator reports no
    deficit; in particular it reports none for pairwise disjoint pools that
    each hold [min * 2] users. *)
Theorem staffable_pools_have_no_deficit
    (rolesConfig : object roleDescriptor) (pools : object JSSet.t) :
  NoDup (lodash.keys rolesConfig) → covers rolesConfig pools →
  staffable rolesConfig pools →
  calculateRolesNeeded rolesConfig pools = Ok [].
Proof.
  intros Hnd Hcov (staff & Hsub & Hdisj & Hmin).
  rewrite calculateRolesNeeded_Ok by done. f_equal.
  apply deficits_nil. intros c _ Hc.
  trans (unionSize staff c); [|by apply unionSize_mono].
  unfold unionSize. rewrite size_union_list_disjoint; [|by eapply sublist_NoDup|done].
  assert (Forall (λ role, role ∈ lodash.keys rolesConfig) c) as Hin.
  { apply Forall_forall. intros role Hrole.
    eapply sublist_submseteq, elem_of_submseteq in Hc; eauto. }
  clear Hc. induction Hin as [|role c Hrole _ IH]; simpl; [done|].
  specialize (Hmin role Hrole). lia.
Qed.

Lemma staffable_pools_have_no_deficit_witness :
  calculateRolesNeeded Example.rolesConfig
    [("tank", ["A"; "B"]); ("healer", ["C"; "D"])] = Ok [].
Proof.
  apply staffable_pools_have_no_deficit.
  - by_computation.
  - unfold covers. by_computation.
  - exists (poolOf [("tank", ["A"; "B"]); ("healer", ["C"; "D"])]). split_and!.
    + done.
    + intros role1 role2 Hne. unfold poolOf. simpl.
      repeat case_decide; simplify_eq; simpl; set_solver.
    + intros role Hrole. unfold lodash.keys, Example.rolesConfig in Hrole. simpl in Hrole.
      apply elem_of_cons in Hrole as [->|Hrole]; [vm_compute; discriminate|].
      apply list_elem_of_singleton in Hrole as ->. vm_compute. discriminate.
Defined.

(** X3: making pools larger never adds a deficit and never enlarges one: if
    every pool of the second mapping contains the corresponding pool of the
    first, each deficit reported for the second is reported for the first
    with at least the same shortfall. *)
Theorem larger_pools_have_fewer_deficits
    (rolesConfig : object roleDescriptor) (pools1 pools2 : object JSSet.t)
    (out1 : list neededCombination) :
  covers rolesConfig pools2 →
  (∀ role, poolOf pools1 role ⊆ poolOf pools2 role) →
  calculateRolesNeeded rolesConfig pools1 = Ok out1 →
  ∃ out2,
    calculateRolesNeeded rolesConfig pools2 = Ok out2
    ∧ (∀ subset shortfall2,
         {| roles := subset; needed := shortfall2 |} ∈ out2 →
         ∃ shortfall1,
           shortfall2 ≤ shortfall1 ∧ {| roles := subset; needed := shortfall1 |} ∈ out1)
    ∧ (out1 = [] → out2 = []).
Proof.
  intros Hcov2 Hsub Hcalc1.
  pose proof (calculateRolesNeeded_Ok_covers _ _ _ Hcalc1) as Hcov1.
  rewrite calculateRolesNeeded_Ok in Hcalc1 by done. injection Hcalc1 as <-.
  exists (deficits rolesConfig pools2). split; [by apply calculateRolesNeeded_Ok|].
  assert (∀ c, unionSize (poolOf pools1) c ≤ unionSize (poolOf pools2) c) as Hmono
    by (intros c; by apply unionSize_mono).
  split.
  - intros subset m2 (Hne & Hs & Hlt & ->)%elem_of_deficits.
    exists (requiredFor rolesConfig subset - unionSize (poolOf pools1) subset).
    specialize (Hmono subset). split; [lia|]. apply elem_of_deficits.
    split_and!; [done|done|lia|done].
  - rewrite !deficits_nil. intros Hall c Hne Hs. specialize (Hall c Hne Hs).
    specialize (Hmono c). lia.
Qed.

Lemma larger_pools_have_fewer_deficits_witness :
  ∃ out2,
    calculateRolesNeeded Example.rolesConfig
      [("tank", ["A"; "B"]); ("healer", ["A"; "B"; "C"])] = Ok out2
    ∧ (∀ subset shortfall2,
         {| roles := subset; needed := shortfall2 |} ∈ out2 →
         ∃ shortfall1,
           shortfall2 ≤ shortfall1
           ∧ {| roles := subset; needed := shortfall1 |}
             ∈ [{| roles := ["tank"; "healer"]; needed := 2 |}])
    ∧ ([{| roles := ["tank"; "healer"]; needed := 2 |}] = [] → out2 = []).
Proof.
  apply (larger_pools_have_fewer_deficits Example.rolesConfig Example.overlapping).
  - unfold covers. by_computation.
  - intros role. unfold poolOf. simpl. repeat case_decide; simpl; set_solver.
  - vm_compute. reflexivity.
Defined.

(** ** The availability handler *)

Section AvailabilityFacts.
Variable rolesConfig : object roleDescriptor.
Context {FilteredUser : Type}.
Variable getFilteredUser : userID → FilteredUser.
Implicit Types st : lobby FilteredUser.

(** [attemptLaunch] itself touches neither the registry nor the ready
    registry, the flag or the timers, whether or not the snapshot can be
    built. *)
Lemma attemptLaunch_frame st :
  let st' := (attemptLaunch rolesConfig getFilteredUser st).1.2 in
  registry st' = registry st
  ∧ readiesReceived st' = readiesReceived st
  ∧ launchAttemptInProgress st' = launchAttemptInProgress st
  ∧ timers st' = timers st.
Proof.
  unfold attemptLaunch, prepareStatusMessage, broadcastStatus, checkLaunchConditions, enqueue.
  unfold mbind, M_bind, bind, read, write, emit, lift. simpl.
  destruct (launchAttemptInProgress st) eqn:Hopen.
  - by destruct (calculateRolesNeeded rolesConfig (playersAvailable st)).
  - by destruct (launchConditionsExecutor rolesConfig st).
Qed.

Lemma updateUserAvailability_registry allRestrictions (a : availability) userRestrictions st :
  allRestrictions !! av_userID a = Some userRestrictions →
  registry (updateUserAvailability rolesConfig getFilteredUser allRestrictions a st).1.2
  = spec_updateAvailability (av_userID a) (av_roles a) (av_captain a)
      (aspects userRestrictions) (registry st).
Proof.
  intros HR. rewrite (updateUserAvailability_run _ _ _ _ _ _ HR). cbv zeta.
  pose proof (attemptLaunch_frame (updated userRestrictions a st)) as [Hreg _].
  destruct (attemptLaunch _ _ (updated userRestrictions a st)) as [[r st'] tr].
  simpl in *. rewrite Hreg. unfold updated, registry. simpl.
  by destruct (spec_updateAvailability _ _ _ _ _).
Qed.
End AvailabilityFacts.

Lemma has_add (u v : userID) (s : JSSet.t) :
  JSSet.has v (JSSet.add u s) = bool_decide (v = u) || JSSet.has v s.
Proof.
  unfold JSSet.has. rewrite <- bool_decide_or. apply bool_decide_ext, elem_of_add.
Qed.

Lemma has_delete (u v : userID) (s : JSSet.t) :
  JSSet.has v (JSSet.delete u s) = bool_decide (v ≠ u) && JSSet.has v s.
Proof.
  unfold JSSet.has. rewrite <- bool_decide_and. apply bool_decide_ext, elem_of_delete.
Qed.

(** The membership flags of any user [v] after [u]'s availability update. *)
Lemma spec_updateAvailability_flags (u v : userID) (desiredRoles : list string)
    (wantsCaptain : bool) (denied : list string) (reg : object JSSet.t * JSSet.t) :
  let reg' := spec_updateAvailability u desiredRoles wantsCaptain denied reg in
  lodash.mapValues reg'.1 (JSSet.has v)
  = (if decide (v = u)
     then (λ entry : string * JSSet.t,
             (entry.1,
              negb (bool_decide ("start" ∈ denied)) && bool_decide (entry.1 ∈ desiredRoles)))
            <$> reg.1
     else lodash.mapValues reg.1 (JSSet.has v))
  ∧ JSSet.has v reg'.2
    = if decide (v = u)
      then negb (bool_decide ("start" ∈ denied)) && negb (bool_decide ("captain" ∈ denied))
           && wantsCaptain
      else JSSet.has v reg.2.
Proof.
  destruct reg as [pools captains]. unfold spec_updateAvailability, lodash.mapValues.
  destruct (decide (v = u)) as [->|Hv].
  - assert (∀ s, JSSet.has u (JSSet.delete u s) = false) as Hdel.
    { intros s. rewrite has_delete. by rewrite bool_decide_eq_false_2 by auto. }
    assert (∀ s, JSSet.has u (JSSet.add u s) = true) as Hadd.
    { intros s. rewrite has_add. by rewrite bool_decide_eq_true_2. }
    destruct (bool_decide ("start" ∈ denied)); cbn [fst snd negb andb].
    + rewrite Hdel. split; [|done].
      rewrite <- list_fmap_compose. apply list_fmap_ext. intros _ [role pool] _. simpl.
      by rewrite Hdel.
    + split.
      * rewrite <- list_fmap_compose. apply list_fmap_ext. intros _ [role pool] _. simpl.
        destruct (bool_decide (role ∈ desiredRoles)); by rewrite ?Hadd, ?Hdel.
      * destruct (bool_decide ("captain" ∈ denied)); [|destruct wantsCaptain];
          by rewrite ?Hadd, ?Hdel.
  - assert (∀ s, JSSet.has v (JSSet.delete u s) = JSSet.has v s) as Hdel.
    { intros s. rewrite has_delete. by rewrite bool_decide_eq_true_2. }
    assert (∀ s, JSSet.has v (JSSet.add u s) = JSSet.has v s) as Hadd.
    { intros s. rewrite has_add. by rewrite bool_decide_eq_false_2. }
    destruct (bool_decide ("start" ∈ denied)); cbn [fst snd negb andb].
    + rewrite Hdel. split; [|done].
      rewrite <- list_fmap_compose. apply list_fmap_ext. intros _ [role pool] _. simpl.
      by rewrite Hdel.
    + split.
      * rewrite <- list_fmap_compose. apply list_fmap_ext. intros _ [role pool] _. simpl.
        destruct (bool_decide (role ∈ desiredRoles)); by rewrite ?Hadd, ?Hdel.
      * destruct (bool_decide ("captain" ∈ denied)); [|destruct wantsCaptain];
          by rewrite ?Hadd, ?Hdel.
Qed.

(** X4: an availability update of [u] changes the memberships of no other
    user: for every [v] other than [u] the per-role flags and the captain
    flag are as before, and the registry keeps the same roles in the same
    order, whatever role names the payload carries. *)
Theorem availability_update_leaves_other_users
    (rolesConfig : object roleDescriptor) {FilteredUser : Type}
    (getFilteredUser : userID → FilteredUser) (st : lobby FilteredUser)
    (allRestrictions : gmap userID restrictions) (a : availability)
    (userRestrictions : restrictions) (v : userID) :
  allRestrictions !! av_userID a = Some userRestrictions → v ≠ av_userID a →
  let st' := (updateUserAvailability rolesConfig getFilteredUser allRestrictions a st).1.2 in
  lodash.keys (playersAvailable st') = lodash.keys (playersAvailable st)
  ∧ lodash.mapValues (playersAvailable st') (JSSet.has v)
    = lodash.mapValues (playersAvailable st) (JSSet.has v)
  ∧ JSSet.has v (captainsAvailable st') = JSSet.has v (captainsAvailable st).
Proof.
  intros HR Hv st'.
  pose proof (updateUserAvailability_registry rolesConfig getFilteredUser _ _ _ st HR) as Hreg.
  fold st' in Hreg.
  pose proof (spec_updateAvailability_flags (av_userID a) v (av_roles a) (av_captain a)
                (aspects userRestrictions) (registry st)) as [Hpools Hcap].
  rewrite <- Hreg in Hpools, Hcap. cbn [registry fst snd] in Hpools, Hcap.
  rewrite decide_False in Hpools by done. rewrite decide_False in Hcap by done.
  split_and!; [|done..].
  rewrite <- (keys_mapValues (playersAvailable st') (JSSet.has v)), Hpools.
  apply keys_mapValues.
Qed.

Lemma availability_update_leaves_other_users_witness :
  JSSet.has "B"
    (captainsAvailable
       (updateUserAvailability Example.rolesConfig Example.getFilteredUser
          Example.noRestrictions
          {| av_userID := "A"; av_roles := []; av_captain := false |}
          Example.allReady).1.2)
  = JSSet.has "B" (captainsAvailable Example.allReady).
Proof.
  refine (proj2 (proj2 (availability_update_leaves_other_users
            Example.rolesConfig Example.getFilteredUser Example.allReady
            Example.noRestrictions
            {| av_userID := "A"; av_roles := []; av_captain := false |}
            {| aspects := [] |} "B" _ _))).
  - vm_compute. reflexivity.
  - discriminate.
Defined.

(** X5: after an availability update of [u] (with a restrictions entry) [u]
    is in exactly the pools of the configured roles named in the payload, and
    in none when [start] is denied; [u] is a captain exactly when the payload
    asks for it and neither [start] nor [captain] is denied; the
    acknowledgment emitted first carries exactly these flags. *)
Theorem availability_update_sets_own_flags
    (rolesConfig : object roleDescriptor) {FilteredUser : Type}
    (getFilteredUser : userID → FilteredUser) (st : lobby FilteredUser)
    (allRestrictions : gmap userID restrictions) (a : availability)
    (userRestrictions : restrictions) :
  allRestrictions !! av_userID a = Some userRestrictions →
  let run := updateUserAvailability rolesConfig getFilteredUser allRestrictions a st in
  let allowed := negb (bool_decide ("start" ∈ aspects userRestrictions)) in
  let roleFlags := (λ entry : string * JSSet.t,
                      (entry.1, allowed && bool_decide (entry.1 ∈ av_roles a)))
                     <$> playersAvailable st in
  let captainFlag := allowed && negb (bool_decide ("captain" ∈ aspects userRestrictions))
                     && av_captain a in
  lodash.mapValues (playersAvailable run.1.2) (JSSet.has (av_userID a)) = roleFlags
  ∧ JSSet.has (av_userID a) (captainsAvailable run.1.2) = captainFlag
  ∧ head run.2 = Some (sendUserAvailabilityUpdated (av_userID a) roleFlags captainFlag).
Proof.
  intros HR run allowed roleFlags captainFlag.
  pose proof (updateUserAvailability_registry rolesConfig getFilteredUser _ _ _ st HR) as Hreg.
  fold run in Hreg.
  pose proof (spec_updateAvailability_flags (av_userID a) (av_userID a) (av_roles a)
                (av_captain a) (aspects userRestrictions) (registry st)) as [Hpools Hcap].
  rewrite decide_True in Hpools by done. rewrite decide_True in Hcap by done.
  assert (registry (updated userRestrictions a st)
          = spec_updateAvailability (av_userID a) (av_roles a) (av_captain a)
              (aspects userRestrictions) (registry st)) as Hupd.
  { unfold updated, registry. simpl. by destruct (spec_updateAvailability _ _ _ _ _). }
  split_and!.
  - rewrite <- Hreg in Hpools. done.
  - rewrite <- Hreg in Hcap. done.
  - subst run. rewrite (updateUserAvailability_run _ _ _ _ _ _ HR). cbv zeta.
    rewrite <- Hupd in Hpools, Hcap. cbn [registry fst snd] in Hpools, Hcap.
    rewrite Hpools, Hcap.
    by destruct (attemptLaunch _ _ (updated userRestrictions a st)) as [[r st'] tr].
Qed.

Lemma availability_update_sets_own_flags_witness :
  JSSet.has "A"
    (captainsAvailable
       (updateUserAvailability Example.rolesConfig Example.getFilteredUser
          (<["A" := {| aspects := ["captain"] |}]> Example.noRestrictions)
          {| av_userID := "A"; av_roles := ["tank"]; av_captain := true |}
          Example.started).1.2)
  = false.
Proof.
  refine (proj1 (proj2 (availability_update_sets_own_flags
            Example.rolesConfig Example.getFilteredUser Example.started
            (<["A" := {| aspects := ["captain"] |}]> Example.noRestrictions)
            {| av_userID := "A"; av_roles := ["tank"]; av_captain := true |}
            {| aspects := ["captain"] |} _))).
  vm_compute. reflexivity.
Defined.

(** ** The state machine *)

Section MachineFacts.
Variable rolesConfig : object roleDescriptor.
Context {FilteredUser : Type}.
Variable getFilteredUser : userID → FilteredUser.
Implicit Types st : lobby FilteredUser.

Local Ltac fields :=
  unfold updated in *;
  cbn [captainsAvailable playersAvailable missingLaunchConditions launchAttemptInProgress
       readiesReceived currentStatusMessage jobs timers
       set_captainsAvailable set_playersAvailable set_missingLaunchConditions
       set_launchAttemptInProgress set_readiesReceived set_currentStatusMessage
       set_jobs set_timers fst snd] in *.

(** Induction over the reachable states, with the invariant of the claims
    at hand. *)
Lemma reachable_invariant (P : lobby FilteredUser → Prop) :
  P (startup rolesConfig getFilteredUser).1.2 →
  (∀ st ev, quiescent rolesConfig st → P st → enabled ev st →
            P (dispatch rolesConfig getFilteredUser ev st).1.2) →
  ∀ st, reachable rolesConfig getFilteredUser st → P st.
Proof.
  intros Hstart Hstep st Hreach. induction Hreach as [|st ev Hreach IH Hen]; [done|].
  apply Hstep; [by eapply reachable_quiescent|done..].
Qed.

(** With no window in progress the check answers [notAvailable] or
    [readyNotChecked]. *)
Lemma launchConditionsExecutor_idle st :
  covers rolesConfig (playersAvailable st) → launchAttemptInProgress st = false →
  launchConditionsExecutor rolesConfig st
  = Ok (if decide (JSSet.size (captainsAvailable st) < 2) then [notAvailable]
        else if decide (deficits rolesConfig (playersAvailable st) = []) then [readyNotChecked]
        else [notAvailable]).
Proof.
  intros Hcov Hidle. unfold launchConditionsExecutor.
  case_decide; [done|]. rewrite (calculateRolesNeeded_Ok _ _ Hcov). simpl.
  rewrite Hidle. simpl.
  destruct (deficits rolesConfig (playersAvailable st)) as [|d ds]; by repeat case_decide.
Qed.

Lemma opens_idle_conditions st :
  opens (Some (if decide (JSSet.size (captainsAvailable st) < 2) then [notAvailable]
               else if decide (deficits rolesConfig (playersAvailable st) = [])
                    then [readyNotChecked]
                    else [notAvailable]))
  ↔ ¬ JSSet.size (captainsAvailable st) < 2
    ∧ deficits rolesConfig (playersAvailable st) = [].
Proof.
  unfold opens. repeat case_decide; simpl; split; try done; try tauto.
  all: intros [? ?]; done.
Qed.






End MachineFacts.



(** X7: an availability change in a lobby with no window in progress opens
    a ready-check window exactly when, after the change, at least two
    captains are available and the calculator reports no deficit; opening
    sets the flag, empties the ready registry, schedules one timer and
    signals [launchInProgress], and otherwise neither timer nor signal
    follows. *)
Theorem availability_change_opens_window_iff
    (rolesConfig : object roleDescriptor) {FilteredUser : Type}
    (getFilteredUser : userID → FilteredUser) (st : lobby FilteredUser)
    (allRestrictions : gmap userID restrictions) (a : availability)
    (userRestrictions : restrictions) :
  jobs st = [] → covers rolesConfig (playersAvailable st) →
  launchAttemptInProgress st = false →
  allRestrictions !! av_userID a = Some userRestrictions →
  let turn := dispatch rolesConfig getFilteredUser
                (availabilityChanged allRestrictions a) st in
  let st' := turn.1.2 in
  (launchAttemptInProgress st' = true
   ↔ 2 ≤ JSSet.size (captainsAvailable st')
     ∧ calculateRolesNeeded rolesConfig (playersAvailable st') = Ok [])
  ∧ (launchAttemptInProgress st' = true →
     readiesReceived st' = [] ∧ timers st' = S (timers st)
     ∧ last turn.2 = Some io_launchInProgress
     ∧ missingLaunchConditions st' = Some [readyNotChecked])
  ∧ (launchAttemptInProgress st' = false →
     timers st' = timers st ∧ (io_launchInProgress ∉ turn.2)
     ∧ missingLaunchConditions st' = Some [notAvailable]).
Proof.
  intros Hq Hcov Hidle HR.
  destruct (dispatch_availabilityChanged rolesConfig getFilteredUser
              _ _ _ _ HR Hq Hcov) as (conditions & Hex & ->).
  rewrite Hidle. cbv zeta.
  pose proof (updated_covers rolesConfig userRestrictions a st Hcov) as Hcov1.
  rewrite launchConditionsExecutor_idle in Hex by done. injection Hex as <-.
  pose proof (opens_idle_conditions rolesConfig (updated userRestrictions a st)) as Hopens.
  match goal with
  | |- context [decide (opens ?c)] => destruct (decide (opens c)) as [Hdec|Hdec]
  end.
  - apply Hopens in Hdec as [Hcap Hdef].
    cbn [fst snd launchAttemptInProgress captainsAvailable playersAvailable readiesReceived
         timers missingLaunchConditions set_timers set_readiesReceived
         set_launchAttemptInProgress set_currentStatusMessage set_missingLaunchConditions].
    rewrite calculateRolesNeeded_Ok, Hdef by done.
    rewrite decide_False, decide_True by done.
    split_and!; [split; [intros _; split; [lia|done]|done]| |done].
    intros _. split_and!; done.
  - cbn [fst snd launchAttemptInProgress captainsAvailable playersAvailable readiesReceived
         timers missingLaunchConditions set_timers set_readiesReceived
         set_launchAttemptInProgress set_currentStatusMessage set_missingLaunchConditions].
    change (launchAttemptInProgress (updated userRestrictions a st))
      with (launchAttemptInProgress st).
    change (timers (updated userRestrictions a st)) with (timers st).
    rewrite Hidle, calculateRolesNeeded_Ok by done.
    split_and!.
    + split; [done|]. intros [Hcap Hdef]. exfalso. apply Hdec, Hopens.
      split; [lia|congruence].
    + done.
    + intros _. split_and!; [done| |].
      * rewrite !elem_of_cons, elem_of_nil. intros [?|[?|?]]; done.
      * repeat case_decide; try done; exfalso; apply Hdec, Hopens; done.
Qed.

Lemma availability_change_opens_window_iff_witness :
  readiesReceived
    (dispatch Example.rolesConfig Example.getFilteredUser
       (Example.join "D" "healer" false)
       (Example.after [Example.join "A" "tank" true; Example.join "B" "tank" true;
                       Example.join "C" "healer" false] Example.started)).1.2 = [].
Proof.
  refine (proj1 (proj1 (proj2 (availability_change_opens_window_iff
            Example.rolesConfig Example.getFilteredUser
            (Example.after [Example.join "A" "tank" true; Example.join "B" "tank" true;
                            Example.join "C" "healer" false] Example.started)
            Example.noRestrictions
            {| av_userID := "D"; av_roles := ["healer"]; av_captain := false |}
            {| aspects := [] |} _ _ _ _)) _)).
  - vm_compute. reflexivity.
  - unfold covers. by_computation.
  - vm_compute. reflexivity.
  - vm_compute. reflexivity.
  - vm_compute. reflexivity.
Defined.

Section WindowFacts.
Variable rolesConfig : object roleDescriptor.
Context {FilteredUser : Type}.
Variable getFilteredUser : userID → FilteredUser.
Implicit Types st : lobby FilteredUser.

Local Ltac fields :=
  unfold updated in *;
  cbn [captainsAvailable playersAvailable missingLaunchConditions launchAttemptInProgress
       readiesReceived currentStatusMessage jobs timers
       set_captainsAvailable set_playersAvailable set_missingLaunchConditions
       set_launchAttemptInProgress set_readiesReceived set_currentStatusMessage
       set_jobs set_timers fst snd] in *.

Lemma opens_idle st conditions :
  covers rolesConfig (playersAvailable st) → launchAttemptInProgress st = false →
  launchConditionsExecutor rolesConfig st = Ok conditions →
  opens (Some conditions) → conditions = [readyNotChecked].
Proof.
  intros Hcov Hidle Hex. rewrite launchConditionsExecutor_idle in Hex by done.
  injection Hex as <-. unfold opens. by repeat case_decide.
Qed.

Lemma pending_startup :
  pendingShowsReadyNotChecked (startup rolesConfig getFilteredUser).1.2.
Proof.
  unfold startup, pendingShowsReadyNotChecked.
  destruct (turn_attemptLaunch rolesConfig getFilteredUser (initial rolesConfig)
              eq_refl (initial_covers rolesConfig)) as (conditions & Hex & ->).
  change (launchAttemptInProgress (initial rolesConfig)) with false. cbv iota zeta.
  case_decide as Hopens; fields.
  - intros _. f_equal. eapply opens_idle; [apply initial_covers|done..].
  - unfold initial. fields. lia.
Qed.

Lemma pending_dispatch st ev :
  quiescent rolesConfig st → pendingShowsReadyNotChecked st → enabled ev st →
  pendingShowsReadyNotChecked (dispatch rolesConfig getFilteredUser ev st).1.2.
Proof.
  intros ([_ Hcov] & Hq & Hidle & Htimers) Hpending Hen.
  unfold pendingShowsReadyNotChecked in *.
  destruct ev as [allRestrictions a|info|allRestrictions u|].
  - destruct (allRestrictions !! av_userID a) as [userRestrictions|] eqn:HR.
    + destruct (dispatch_availabilityChanged rolesConfig getFilteredUser
                  _ _ _ _ HR Hq Hcov) as (conditions & Hex & ->).
      pose proof (updated_covers rolesConfig userRestrictions a st Hcov) as Hcov1.
      destruct (launchAttemptInProgress st) eqn:Hopen; [by fields|].
      destruct (Hidle eq_refl) as [_ Hzero]. cbv zeta. case_decide as Hopens; fields.
      * intros _. f_equal. by eapply (opens_idle (updated userRestrictions a st)).
      * lia.
    + by rewrite dispatch_unknown_user.
  - rewrite dispatch_readyStatusChanged by done.
    by destruct (launchAttemptInProgress st).
  - destruct (allRestrictions !! u) as [userRestrictions|] eqn:HR.
    + destruct (dispatch_disconnected rolesConfig getFilteredUser
                  _ _ _ _ HR Hq Hcov) as (conditions & Hex & ->).
      pose proof (updated_covers rolesConfig userRestrictions
                    {| av_userID := u; av_roles := []; av_captain := false |} st Hcov)
        as Hcov1.
      destruct (launchAttemptInProgress st) eqn:Hopen; [by fields|].
      destruct (Hidle eq_refl) as [_ Hzero]. cbv zeta. case_decide as Hopens; fields.
      * intros _. f_equal.
        by eapply (opens_idle (updated userRestrictions
                                 {| av_userID := u; av_roles := []; av_captain := false |} st)).
      * lia.
    + by rewrite dispatch_disconnected_unknown.
  - destruct (dispatch_readyPeriodElapsed rolesConfig getFilteredUser st Hq Hcov)
      as (conditions & _ & ->).
    cbv zeta. fields. lia.
Qed.

Lemma snapshot_startup :
  snapshotCurrent rolesConfig getFilteredUser (startup rolesConfig getFilteredUser).1.2.
Proof.
  unfold startup, snapshotCurrent.
  destruct (turn_attemptLaunch rolesConfig getFilteredUser (initial rolesConfig)
              eq_refl (initial_covers rolesConfig)) as (conditions & Hex & ->).
  change (launchAttemptInProgress (initial rolesConfig)) with false. cbv iota zeta.
  by case_decide.
Qed.

Lemma snapshot_dispatch st ev :
  quiescent rolesConfig st → snapshotCurrent rolesConfig getFilteredUser st →
  snapshotCurrent rolesConfig getFilteredUser
    (dispatch rolesConfig getFilteredUser ev st).1.2.
Proof.
  intros ([_ Hcov] & Hq & _) Hcur. unfold snapshotCurrent in *.
  destruct ev as [allRestrictions a|info|allRestrictions u|].
  - destruct (allRestrictions !! av_userID a) as [userRestrictions|] eqn:HR.
    + destruct (dispatch_availabilityChanged rolesConfig getFilteredUser
                  _ _ _ _ HR Hq Hcov) as (conditions & Hex & ->).
      destruct (launchAttemptInProgress st); [done|]. cbv zeta. by case_decide.
    + by rewrite dispatch_unknown_user.
  - rewrite dispatch_readyStatusChanged by done.
    by destruct (launchAttemptInProgress st).
  - destruct (allRestrictions !! u) as [userRestrictions|] eqn:HR.
    + destruct (dispatch_disconnected rolesConfig getFilteredUser
                  _ _ _ _ HR Hq Hcov) as (conditions & Hex & ->).
      destruct (launchAttemptInProgress st); [done|]. cbv zeta. by case_decide.
    + by rewrite dispatch_disconnected_unknown.
  - by destruct (dispatch_readyPeriodElapsed rolesConfig getFilteredUser st Hq Hcov)
      as (conditions & _ & ->).
Qed.
End WindowFacts.

(** X8: while the timer of a ready-check window is pending, the stored
    launch conditions stay [readyNotChecked]: an availability change during
    the window is answered by the acknowledgment and one snapshot that still
    reports [readyNotChecked], whatever the change did to the registry. *)
Theorem pending_window_reports_readyNotChecked
    (rolesConfig : object roleDescriptor) {FilteredUser : Type}
    (getFilteredUser : userID → FilteredUser) (st : lobby FilteredUser) :
  reachable rolesConfig getFilteredUser st → (0 < timers st)%nat →
  missingLaunchConditions st = Some [readyNotChecked]
  ∧ ∀ allRestrictions (a : availability) userRestrictions,
      allRestrictions !! av_userID a = Some userRestrictions →
      ∃ ack msg,
        (dispatch rolesConfig getFilteredUser (availabilityChanged allRestrictions a) st).2
        = [ack; io_launchStatusUpdated (Some msg)]
        ∧ msg_missingLaunchConditions msg = Some [readyNotChecked].
Proof.
  intros Hreach Htimer.
  assert (pendingShowsReadyNotChecked st) as Hpending.
  { clear Htimer. revert st Hreach. apply (reachable_invariant rolesConfig getFilteredUser).
    - apply pending_startup.
    - intros st ev. apply pending_dispatch. }
  specialize (Hpending Htimer). split; [done|].
  intros allRestrictions a userRestrictions HR.
  apply reachable_quiescent in Hreach as ([_ Hcov] & Hq & Hidle & _).
  destruct (dispatch_availabilityChanged rolesConfig getFilteredUser
              _ _ _ _ HR Hq Hcov) as (conditions & _ & ->).
  destruct (launchAttemptInProgress st) eqn:Hopen.
  - eexists _, _. split; [reflexivity|]. done.
  - destruct (Hidle eq_refl) as [_ Hzero]. lia.
Qed.

Lemma pending_window_reports_readyNotChecked_witness :
  missingLaunchConditions Example.oneCaptainReady = Some [readyNotChecked].
Proof.
  refine (proj1 (pending_window_reports_readyNotChecked
                   Example.rolesConfig Example.getFilteredUser Example.oneCaptainReady _ _)).
  - unfold Example.oneCaptainReady, Example.windowOpen, Example.after. simpl.
    repeat (apply reachable_dispatch; [|exact I]). apply reachable_startup.
  - vm_compute. lia.
Defined.

(** X9: in every reachable state the snapshot replayed to a newly connected
    socket is defined and is the snapshot of the current state: its pools,
    captains, deficits and stored conditions are the current ones. *)
Theorem connection_replays_current_snapshot
    (rolesConfig : object roleDescriptor) {FilteredUser : Type}
    (getFilteredUser : userID → FilteredUser) (st : lobby FilteredUser) :
  reachable rolesConfig getFilteredUser st →
  onConnection st
  = [socket_launchStatusUpdated (Some (statusOf rolesConfig getFilteredUser st))].
Proof.
  intros Hreach. unfold onConnection. do 2 f_equal.
  revert st Hreach.
  apply (reachable_invariant rolesConfig getFilteredUser
           (snapshotCurrent rolesConfig getFilteredUser)).
  - apply snapshot_startup.
  - intros st ev Hquiet Hcur _. by apply snapshot_dispatch.
Qed.

Lemma connection_replays_current_snapshot_witness :
  onConnection Example.started
  = [socket_launchStatusUpdated
       (Some (statusOf Example.rolesConfig Example.getFilteredUser Example.started))].
Proof.
  apply connection_replays_current_snapshot. apply reachable_startup.
Defined.

(** ** Disconnects and readiness *)

(** X10: after the disconnect of a user who has a restrictions entry, in any
    reachable state, the user is in no role pool, is no captain and is not in
    the ready registry; both clears are acknowledged, and the availability
    replayed on a later authentication of that user is all [false]. *)
Theorem disconnect_clears_user
    (rolesConfig : object roleDescriptor) {FilteredUser : Type}
    (getFilteredUser : userID → FilteredUser) (st : lobby FilteredUser)
    (allRestrictions : gmap userID restrictions) (u : userID)
    (userRestrictions : restrictions) :
  reachable rolesConfig getFilteredUser st →
  allRestrictions !! u = Some userRestrictions →
  let turn := dispatch rolesConfig getFilteredUser (disconnected allRestrictions u) st in
  let st' := turn.1.2 in
  let noRoles := lodash.mapValues (playersAvailable st) (λ _, false) in
  turn.1.1 = Ok tt
  ∧ Forall (λ pool, u ∉ pool) (playersAvailable st').*2
  ∧ (u ∉ captainsAvailable st')
  ∧ (u ∉ readiesReceived st')
  ∧ (sendUserAvailabilityUpdated u noRoles false ∈ turn.2)
  ∧ (sendUserReadyStatusUpdated u false ∈ turn.2)
  ∧ head (onAuthenticated u st') = Some (socket_userAvailabilityUpdated noRoles false).
Proof.
  intros ([_ Hcov] & Hq & Hidle & _)%reachable_quiescent HR.
  set (a := {| av_userID := u; av_roles := []; av_captain := false |}).
  pose proof (spec_updateAvailability_flags u u [] false (aspects userRestrictions)
                (registry st)) as [Hpools Hcap].
  rewrite decide_True in Hpools by done. rewrite decide_True in Hcap by done.
  assert (registry (updated userRestrictions a st)
          = spec_updateAvailability u [] false (aspects userRestrictions) (registry st))
    as Hupd.
  { unfold updated, registry. simpl. by destruct (spec_updateAvailability _ _ _ _ _). }
  rewrite <- Hupd in Hpools, Hcap. cbn [registry fst snd] in Hpools, Hcap.
  rewrite andb_false_r in Hcap.
  assert (lodash.mapValues (playersAvailable (updated userRestrictions a st)) (JSSet.has u)
          = lodash.mapValues (playersAvailable st) (λ _, false)) as Hflags.
  { rewrite Hpools. unfold lodash.mapValues. apply list_fmap_ext.
    intros _ [role pool] _. simpl. by rewrite andb_false_r. }
  assert (Forall (λ pool, u ∉ pool) (playersAvailable (updated userRestrictions a st)).*2)
    as Hout.
  { clear -Hflags. unfold lodash.mapValues in Hflags.
    apply Forall_fmap, Forall_forall. intros [role pool] Hin. simpl.
    apply (list_elem_of_fmap_2 (λ kv : string * JSSet.t, (kv.1, JSSet.has u kv.2))) in Hin.
    rewrite Hflags in Hin. apply list_elem_of_fmap in Hin as ([role' pool'] & Heq & _).
    simpl in Heq. injection Heq as _ Hhas. unfold JSSet.has in Hhas.
    by apply bool_decide_eq_false in Hhas. }
  assert (u ∉ captainsAvailable (updated userRestrictions a st)) as Hnocap.
  { unfold JSSet.has in Hcap. by apply bool_decide_eq_false in Hcap. }
  destruct (dispatch_disconnected rolesConfig getFilteredUser
              _ _ _ _ HR Hq Hcov) as (conditions & _ & ->).
  fold a. rewrite Hflags, Hcap.
  destruct (launchAttemptInProgress st) eqn:Hopen.
  - cbn [fst snd playersAvailable captainsAvailable readiesReceived
         set_readiesReceived set_currentStatusMessage].
    split_and!; try done.
    + rewrite elem_of_delete. tauto.
    + left.
    + do 2 right. left.
    + unfold onAuthenticated. cbn [playersAvailable captainsAvailable
        set_readiesReceived set_currentStatusMessage head]. by rewrite Hflags, Hcap.
  - destruct (Hidle eq_refl) as [Hempty _]. cbv zeta.
    assert (u ∉ readiesReceived (updated userRestrictions a st)) as Hnoready.
    { change (readiesReceived (updated userRestrictions a st)) with (readiesReceived st).
      rewrite Hempty. apply not_elem_of_nil. }
    destruct (decide (opens (Some conditions)));
      cbn [fst snd playersAvailable captainsAvailable readiesReceived
           set_readiesReceived set_currentStatusMessage set_timers
           set_launchAttemptInProgress set_missingLaunchConditions].
    + split_and!; try done.
      * apply not_elem_of_nil.
      * left.
      * right. left.
      * unfold onAuthenticated.
        cbn [playersAvailable captainsAvailable set_readiesReceived
             set_currentStatusMessage set_timers set_launchAttemptInProgress
             set_missingLaunchConditions head]. by rewrite Hflags, Hcap.
    + split_and!; try done.
      * left.
      * right. left.
      * unfold onAuthenticated.
        cbn [playersAvailable captainsAvailable set_readiesReceived
             set_currentStatusMessage set_timers set_launchAttemptInProgress
             set_missingLaunchConditions head]. by rewrite Hflags, Hcap.
Qed.

Lemma disconnect_clears_user_witness :
  "A" ∉ readiesReceived
          (dispatch Example.rolesConfig Example.getFilteredUser
             (disconnected Example.noRestrictions "A") Example.allReady).1.2.
Proof.
  refine (proj1 (proj2 (proj2 (proj2 (disconnect_clears_user
            Example.rolesConfig Example.getFilteredUser Example.allReady
            Example.noRestrictions "A" {| aspects := [] |} _ _))))).
  - unfold Example.allReady, Example.windowOpen, Example.after. simpl.
    repeat (apply reachable_dispatch; [|exact I]). apply reachable_startup.
  - vm_compute. reflexivity.
Defined.

(** X11: for a user without an entry in [self.userRestrictions] both the
    availability handler and the disconnect handler throw [TypeError] before
    anything is written or emitted; on a disconnect the readiness clear is
    skipped with it, so the user stays wherever they were, the ready registry
    included. *)
Theorem handlers_throw_for_unknown_user
    (rolesConfig : object roleDescriptor) {FilteredUser : Type}
    (getFilteredUser : userID → FilteredUser) (st : lobby FilteredUser)
    (allRestrictions : gmap userID restrictions) (a : availability) :
  allRestrictions !! av_userID a = None →
  updateUserAvailability rolesConfig getFilteredUser allRestrictions a st
  = (Throw TypeError, st, [])
  ∧ userDisconnected rolesConfig getFilteredUser allRestrictions (av_userID a) st
    = (Throw TypeError, st, [])
  ∧ (jobs st = [] →
     dispatch rolesConfig getFilteredUser (disconnected allRestrictions (av_userID a)) st
     = (Throw TypeError, st, [])).
Proof.
  intros HR. split_and!.
  - unfold updateUserAvailability. by rewrite HR.
  - unfold userDisconnected, updateUserAvailability. simpl. rewrite HR.
    by unfold mbind, M_bind, bind, throw.
  - intros Hq. by apply dispatch_disconnected_unknown.
Qed.

Lemma handlers_throw_for_unknown_user_witness :
  userDisconnected Example.rolesConfig Example.getFilteredUser ∅ "A" Example.allReady
  = (Throw TypeError, Example.allReady, []).
Proof.
  refine (proj1 (proj2 (handlers_throw_for_unknown_user
            Example.rolesConfig Example.getFilteredUser Example.allReady ∅
            {| av_userID := "A"; av_roles := []; av_captain := false |} _))).
  vm_compute. reflexivity.
Defined.

Lemma delete_add_fresh (u : userID) (s : JSSet.t) :
  u ∉ s → JSSet.delete u (JSSet.add u s) = s.
Proof.
  intros Hu.
  replace (JSSet.add u s) with (s ++ [u])
    by (unfold JSSet.add, JSSet.has; by rewrite bool_decide_eq_false_2).
  unfold JSSet.delete, JSSet.t in *.
  rewrite filter_app, filter_cons_False, filter_nil, app_nil_r by auto.
  induction s as [|x s IH]; [done|].
  apply not_elem_of_cons in Hu as [Hne Hu].
  rewrite filter_cons_True by auto. by rewrite IH.
Qed.

(** X12: in an open window, a user who was not ready, declares readiness and
    then withdraws it leaves the ready registry exactly as it was (order
    included), and the launch conditions evaluate as before; both events are
    acknowledged and nothing else is emitted. *)
Theorem ready_then_unready_restores_registry
    (rolesConfig : object roleDescriptor) {FilteredUser : Type}
    (getFilteredUser : userID → FilteredUser) (st : lobby FilteredUser) (u : userID) :
  jobs st = [] → launchAttemptInProgress st = true → u ∉ readiesReceived st →
  let first := dispatch rolesConfig getFilteredUser
                 (readyStatusChanged {| ri_userID := u; ri_ready := true |}) st in
  let second := dispatch rolesConfig getFilteredUser
                  (readyStatusChanged {| ri_userID := u; ri_ready := false |}) first.1.2 in
  u ∈ readiesReceived first.1.2
  ∧ readiesReceived second.1.2 = readiesReceived st
  ∧ launchConditionsExecutor rolesConfig second.1.2 = launchConditionsExecutor rolesConfig st
  ∧ first.2 ++ second.2
    = [sendUserReadyStatusUpdated u true; sendUserReadyStatusUpdated u false].
Proof.
  intros Hq Hopen Hu first second. subst second first.
  rewrite (dispatch_readyStatusChanged _ _ _ st) by done. rewrite Hopen.
  cbn [fst snd ri_ready ri_userID].
  rewrite dispatch_readyStatusChanged by done.
  cbn [fst snd ri_ready ri_userID launchAttemptInProgress readiesReceived
       set_readiesReceived].
  rewrite Hopen. cbn [fst snd readiesReceived set_readiesReceived].
  rewrite delete_add_fresh by done. split_and!; try done.
  apply elem_of_add. by left.
Qed.

Lemma ready_then_unready_restores_registry_witness :
  readiesReceived
    (dispatch Example.rolesConfig Example.getFilteredUser
       (readyStatusChanged {| ri_userID := "B"; ri_ready := false |})
       (dispatch Example.rolesConfig Example.getFilteredUser
          (readyStatusChanged {| ri_userID := "B"; ri_ready := true |})
          Example.oneCaptainReady).1.2).1.2
  = readiesReceived Example.oneCaptainReady.
Proof.
  refine (proj1 (proj2 (ready_then_unready_restores_registry
            Example.rolesConfig Example.getFilteredUser Example.oneCaptainReady "B" _ _ _))).
  - vm_compute. reflexivity.
  - vm_compute. reflexivity.
  - by_computation.
Defined.

(** ** Window resolution *)

Lemma launchConditionsExecutor_met (rolesConfig : object roleDescriptor)
    {FilteredUser : Type} (st : lobby FilteredUser) :
  launchConditionsExecutor rolesConfig st = Ok [] →
  launchAttemptInProgress st = true
  ∧ 2 ≤ JSSet.size (readyOnly (readiesReceived st) (captainsAvailable st))
  ∧ calculateRolesNeeded rolesConfig
      (lodash.mapValues (playersAvailable st) (readyOnly (readiesReceived st))) = Ok [].
Proof.
  unfold launchConditionsExecutor. case_decide; [done|].
  destruct (calculateRolesNeeded rolesConfig (playersAvailable st)) as [rn|e]; simpl; [|done].
  case_decide; [done|]. destruct (launchAttemptInProgress st); simpl; [|done].
  case_decide as Hcap; [done|].
  destruct (calculateRolesNeeded rolesConfig (lodash.mapValues _ _)) as [rn'|e];
    simpl; [|done].
  case_decide as Hrn; [done|]. intros _. split_and!; [done|lia|].
  f_equal. destruct rn'; [done|]. unfold lodash.size in Hrn. simpl in Hrn. lia.
Qed.



(** X14: when the check at the end of the ready period finds no unmet
    condition, the pruned registry it leaves is itself sufficient: at least two
    captains remain, the calculator reports no deficit on the remaining
    pools, and every remaining captain and pool member is in the ready
    registry. *)
Theorem met_conditions_leave_sufficient_registry
    (rolesConfig : object roleDescriptor) {FilteredUser : Type}
    (getFilteredUser : userID → FilteredUser) (st : lobby FilteredUser) :
  jobs st = [] → launchConditionsExecutor rolesConfig st = Ok [] →
  let st' := (dispatch rolesConfig getFilteredUser readyPeriodElapsed st).1.2 in
  missingLaunchConditions st' = Some []
  ∧ 2 ≤ JSSet.size (captainsAvailable st')
  ∧ calculateRolesNeeded rolesConfig (playersAvailable st') = Ok []
  ∧ (∀ u, u ∈ captainsAvailable st' → u ∈ readiesReceived st')
  ∧ Forall (λ pool, ∀ u, u ∈ pool → u ∈ readiesReceived st') (playersAvailable st').*2.
Proof.
  intros Hq Hex.
  pose proof (launchConditionsExecutor_met rolesConfig st Hex) as (Hopen & Hcap & Hcalc).
  assert (covers rolesConfig (playersAvailable st)) as Hcov.
  { apply calculateRolesNeeded_Ok_covers in Hcalc. by apply covers_mapValues in Hcalc. }
  destruct (dispatch_readyPeriodElapsed rolesConfig getFilteredUser st Hq Hcov)
    as (conditions & Hex' & ->).
  rewrite Hex in Hex'. injection Hex' as <-. cbv zeta.
  cbn [fst snd missingLaunchConditions captainsAvailable playersAvailable readiesReceived
       set_currentStatusMessage set_captainsAvailable set_playersAvailable
       set_missingLaunchConditions set_timers].
  split_and!; [done..| |].
  - by intros u [_ ?]%elem_of_readyOnly.
  - unfold lodash.mapValues. rewrite !Forall_fmap. apply Forall_forall.
    intros [role pool] _ u. simpl. by intros [_ ?]%elem_of_readyOnly.
Qed.

Lemma met_conditions_leave_sufficient_registry_witness :
  calculateRolesNeeded Example.rolesConfig
    (playersAvailable
       (dispatch Example.rolesConfig Example.getFilteredUser
          readyPeriodElapsed Example.allReady).1.2) = Ok [].
Proof.
  refine (proj1 (proj2 (proj2 (met_conditions_leave_sufficient_registry
            Example.rolesConfig Example.getFilteredUser Example.allReady _ _)))).
  - vm_compute. reflexivity.
  - vm_compute. reflexivity.
Defined.

(** ** The event loop *)

Section LoopFacts.
Variable rolesConfig : object roleDescriptor.
Context {FilteredUser : Type}.
Variable getFilteredUser : userID → FilteredUser.
Implicit Types st : lobby FilteredUser.

Lemma prepareStatusMessage_jobs st :
  jobs (prepareStatusMessage rolesConfig getFilteredUser st).1.2 = jobs st.
Proof.
  unfold prepareStatusMessage, mbind, M_bind, bind, read, lift, write. simpl.
  by destruct (calculateRolesNeeded rolesConfig (playersAvailable st)).
Qed.

Lemma onLaunchChecked_jobs st :
  jobs (onLaunchChecked rolesConfig getFilteredUser st).1.2 = jobs st.
Proof.
  unfold onLaunchChecked, prepareStatusMessage, broadcastStatus, setTimeout.
  unfold mbind, M_bind, bind, read, lift, write, emit, ret. simpl.
  destruct (calculateRolesNeeded rolesConfig (playersAvailable st)); simpl; [|done].
  by case_decide.
Qed.

Lemma onReadyPeriodChecked_jobs st :
  jobs (onReadyPeriodChecked rolesConfig getFilteredUser st).1.2 = jobs st.
Proof.
  unfold onReadyPeriodChecked, prepareStatusMessage, broadcastStatus.
  unfold mbind, M_bind, bind, read, lift, write, emit, ret. simpl.
  destruct (calculateRolesNeeded rolesConfig _); simpl; [|done].
  by case_decide.
Qed.

(** A job leaves the queue as it found it, plus at most one lighter job. *)
Lemma runJob_jobs (j : job) st :
  ∃ new, jobs (runJob rolesConfig getFilteredUser j st).1.2 = jobs st ++ new
         ∧ (sum_list (jobWeight <$> new) < jobWeight j)%nat.
Proof.
  destruct j as [conditions k|launchConditions k|[|]|e].
  - exists [thenStoreConditions [conditions] k]. split; [done|simpl; lia].
  - exists [thenContinue k]. split; [done|simpl; lia].
  - exists []. rewrite app_nil_r. split; [apply onLaunchChecked_jobs|simpl; lia].
  - exists []. rewrite app_nil_r. split; [apply onReadyPeriodChecked_jobs|simpl; lia].
  - exists []. rewrite app_nil_r. split; [done|simpl; lia].
Qed.

Lemma jobWeight_pos (queue : list job) :
  sum_list (jobWeight <$> queue) = 0%nat → queue = [].
Proof. destruct queue as [|[] ?]; simpl; (done || lia). Qed.

Lemma runJobs_empties (fuel : nat) st :
  (sum_list (jobWeight <$> jobs st) ≤ fuel)%nat →
  jobs (runJobs rolesConfig getFilteredUser fuel st).1 = [].
Proof.
  revert st. induction fuel as [|fuel IH]; intros st Hfuel.
  - rewrite runJobs_done. simpl. apply jobWeight_pos. lia.
  - destruct (jobs st) as [|j queue] eqn:Hq.
    + cbn [runJobs]. by rewrite Hq.
    + rewrite (runJobs_step _ _ _ _ _ _ Hq).
      destruct (runJob_jobs j (set_jobs queue st)) as (new & Hnew & Hlight).
      destruct (runJob rolesConfig getFilteredUser j (set_jobs queue st)) as [[r st'] tr].
      simpl in Hnew. specialize (IH st').
      destruct (runJobs rolesConfig getFilteredUser fuel st') as [st'' tr''].
      cbn [fst snd] in *. apply IH.
      rewrite fmap_cons in Hfuel. cbn [sum_list_with id] in Hfuel.
      rewrite Hnew, fmap_app, sum_list_with_app. lia.
Qed.
End LoopFacts.

(** X15: a turn of the event loop always ends with an empty promise queue,
    whatever handler ran, whatever was queued before and whether or not a
    callback threw: no callback of the module chains a further check. *)
Theorem turn_empties_job_queue
    (rolesConfig : object roleDescriptor) {FilteredUser : Type}
    (getFilteredUser : userID → FilteredUser) (st : lobby FilteredUser) :
  (∀ m : M unit, jobs (turn rolesConfig getFilteredUser m st).1.2 = [])
  ∧ ∀ ev, jobs (dispatch rolesConfig getFilteredUser ev st).1.2 = [].
Proof.
  assert (∀ m : M unit, jobs (turn rolesConfig getFilteredUser m st).1.2 = []) as Hturn.
  { intros m. unfold turn. destruct (m st) as [[r st'] tr].
    pose proof (runJobs_empties rolesConfig getFilteredUser _ st' (le_n _)) as Hdrain.
    fold (drain rolesConfig getFilteredUser st') in Hdrain.
    by destruct (drain rolesConfig getFilteredUser st'). }
  split; [done|]. intros ev. apply Hturn.
Qed.

(** X16: at load, for every role configuration, the module broadcasts
    exactly one snapshot, with empty pools and [notAvailable] as the only unmet
    condition, and opens no window. *)
Theorem startup_reports_notAvailable
    (rolesConfig : object roleDescriptor) {FilteredUser : Type}
    (getFilteredUser : userID → FilteredUser) :
  let st := (startup rolesConfig getFilteredUser).1.2 in
  (startup rolesConfig getFilteredUser).1.1 = Ok tt
  ∧ (startup rolesConfig getFilteredUser).2
    = [io_launchStatusUpdated (Some (statusOf rolesConfig getFilteredUser st))]
  ∧ missingLaunchConditions st = Some [notAvailable]
  ∧ launchAttemptInProgress st = false
  ∧ timers st = 0%nat
  ∧ registry st = (lodash.mapValues rolesConfig (λ _, JSSet.empty), JSSet.empty).
Proof.
  unfold startup.
  destruct (turn_attemptLaunch rolesConfig getFilteredUser (initial rolesConfig)
              eq_refl (initial_covers rolesConfig)) as (conditions & Hex & ->).
  rewrite launchConditionsExecutor_idle in Hex by (done || apply initial_covers).
  rewrite decide_True in Hex by done. injection Hex as <-.
  change (launchAttemptInProgress (initial rolesConfig)) with false. cbv iota zeta.
  rewrite decide_False by (vm_compute; discriminate). done.
Qed.

(** ** scripts/updatePlayerStats.js *)

Section StatsFacts.
Import Stats.






End StatsFacts.






(** *** Draft positions *)

Section DraftFacts.
Import Stats.

Lemma pickPosition_spec (u : jsValue) (draftChoices : list draftChoice) (start position : nat) :
  pickPosition u draftChoices start = Ok position →
  (∃ before choice after,
     draftChoices = before ++ choice :: after
     ∧ picks u choice
     ∧ Forall (λ c, ¬ picks u c) before
     ∧ position = (start + S (length (filter isPlayerPick before)))%nat)
  ∨ (Forall (λ c, ¬ picks u c) draftChoices
     ∧ position = (start + length (filter isPlayerPick draftChoices))%nat).
Proof.
  revert start. induction draftChoices as [|c rest IH]; intros start; simpl.
  - intros [= <-]. right. split; [constructor|]. simpl. lia.
  - case_bool_decide as Htype.
    + destruct (getDocumentID (player c)) as [picked|e] eqn:Hpicked; simpl; [|done].
      destruct (getDocumentID u) as [userID|e] eqn:Huser; simpl; [|done].
      destruct (strictEquals picked userID) eqn:Heq.
      * intros [= <-]. left. exists [], c, rest. split_and!; [done| |constructor|simpl; lia].
        split; [done|]. by exists picked, userID.
      * intros Hrest. assert (¬ picks u c) as Hnot.
        { intros (_ & picked' & userID' & Hp & Hu & Htrue). congruence. }
        destruct (IH _ Hrest) as [(before & choice & after & -> & Hpick & Hbefore & ->)
                                 |[Hall ->]].
        -- left. exists (c :: before), choice, after.
           split_and!; [done|done|by constructor|].
           rewrite filter_cons_True by done. simpl. lia.
        -- right. split; [by constructor|].
           rewrite filter_cons_True by done. simpl. lia.
    + intros Hrest. assert (¬ picks u c) as Hnot by (by intros [? _]).
      destruct (IH _ Hrest) as [(before & choice & after & -> & Hpick & Hbefore & ->)
                               |[Hall ->]].
      * left. exists (c :: before), choice, after.
        split_and!; [done|done|by constructor|].
        by rewrite filter_cons_False.
      * right. split; [by constructor|]. by rewrite filter_cons_False.
Qed.

Lemma sum_bump (position : nat) (draftPositions : list (nat * nat)) :
  sum_list (bump position draftPositions).*2 = S (sum_list draftPositions.*2).
Proof.
  induction draftPositions as [|[k count] rest IH]; [done|].
  cbn [bump]. repeat case_decide; rewrite ?fmap_cons; cbn [sum_list_with snd id];
    [lia|lia|]. rewrite IH. lia.
Qed.

Lemma elem_of_bump_keys (position k : nat) (draftPositions : list (nat * nat)) :
  k ∈ (bump position draftPositions).*1 ↔ k = position ∨ k ∈ draftPositions.*1.
Proof.
  induction draftPositions as [|[k' count] rest IH]; cbn [bump].
  - rewrite !fmap_cons, fmap_nil. cbn [fst]. rewrite elem_of_cons, elem_of_nil. tauto.
  - repeat case_decide; rewrite !fmap_cons; cbn [fst]; rewrite !elem_of_cons; subst.
    + tauto.
    + tauto.
    + rewrite IH. tauto.
Qed.

Lemma bump_sorted (position : nat) (draftPositions : list (nat * nat)) :
  StronglySorted lt draftPositions.*1 → StronglySorted lt (bump position draftPositions).*1.
Proof.
  induction draftPositions as [|[k count] rest IH]; cbn [bump].
  - intros _. repeat constructor.
  - rewrite fmap_cons. cbn [fst].
    intros [Hsorted Hall]%StronglySorted_inv.
    repeat case_decide; rewrite !fmap_cons; cbn [fst].
    + constructor; [by constructor|]. constructor; [done|].
      eapply Forall_impl; [done|]. simpl. lia.
    + by constructor.
    + constructor; [by apply IH|]. apply Forall_forall.
      intros k' [->|Hin]%elem_of_bump_keys; [lia|].
      rewrite Forall_forall in Hall. by apply Hall.
Qed.

Lemma seq_sorted (start count : nat) : StronglySorted lt (seq start count).
Proof.
  revert start. induction count as [|count IH]; intros start; simpl; constructor; [done|].
  apply Forall_forall. intros k Hk%elem_of_seq. lia.
Qed.

Lemma foldM_bump (u : jsValue) (draftedGames : list game) (initial stats : list (nat * nat)) :
  foldM (λ draftPositions g,
           position ← pickPosition u (choices g) 0;
           Ok (bump position draftPositions)) draftedGames initial = Ok stats →
  sum_list stats.*2 = (sum_list initial.*2 + length draftedGames)%nat
  ∧ (StronglySorted lt initial.*1 → StronglySorted lt stats.*1)
  ∧ ∀ k, k ∈ stats.*1
         ↔ k ∈ initial.*1 ∨ ∃ g, g ∈ draftedGames ∧ pickPosition u (choices g) 0 = Ok k.
Proof.
  revert initial. induction draftedGames as [|g rest IH]; intros initial; simpl.
  - intros [= <-]. split_and!; [lia|done|]. intros k. split; [by left|].
    intros [?|(g & Hg & _)]; [done|]. by apply elem_of_nil in Hg.
  - destruct (pickPosition u (choices g) 0) as [position|e] eqn:Hpos; simpl; [|done].
    intros (Hsum & Hsorted & Hkeys)%IH. split_and!.
    + rewrite Hsum, sum_bump. lia.
    + intros Hinit. by apply Hsorted, bump_sorted.
    + intros k. rewrite Hkeys, elem_of_bump_keys. split.
      * intros [[->|Hin]|(g' & Hg' & Hk)]; [right|by left|right].
        -- exists g. split; [by left|done].
        -- exists g'. split; [by right|done].
      * intros [Hin|(g' & [->|Hg']%elem_of_cons & Hk)].
        -- left. by right.
        -- left. left. congruence.
        -- right. by exists g'.
Qed.
End DraftFacts.

(** X19: the position the draft loop computes for a game is the rank of the
    user's first player pick among the player picks; when no player pick is
    the user's, it is the number of player picks of the game, so the game is
    counted at its last pick position (at position 0 when it has none). *)
Theorem pickPosition_is_rank_of_first_pick
    (u : Stats.jsValue) (draftChoices : list Stats.draftChoice) (position : nat) :
  Stats.pickPosition u draftChoices 0 = Ok position →
  (∃ before choice after,
     draftChoices = before ++ choice :: after
     ∧ Stats.picks u choice
     ∧ Forall (λ c, ¬ Stats.picks u c) before
     ∧ position = S (length (filter Stats.isPlayerPick before)))
  ∨ (Forall (λ c, ¬ Stats.picks u c) draftChoices
     ∧ position = length (filter Stats.isPlayerPick draftChoices)).
Proof. intros Hposition. by apply pickPosition_spec in Hposition. Qed.

Lemma pickPosition_is_rank_of_first_pick_witness :
  (∃ before choice after,
     Stats.choices StatsExample.twoTeams = before ++ choice :: after
     ∧ Stats.picks (Stats.vString "cc") choice
     ∧ Forall (λ c, ¬ Stats.picks (Stats.vString "cc") c) before
     ∧ 2%nat = S (length (filter Stats.isPlayerPick before)))
  ∨ (Forall (λ c, ¬ Stats.picks (Stats.vString "cc") c) (Stats.choices StatsExample.twoTeams)
     ∧ 2%nat = length (filter Stats.isPlayerPick (Stats.choices StatsExample.twoTeams))).
Proof.
  apply (pickPosition_is_rank_of_first_pick (Stats.vString "cc")).
  vm_compute. reflexivity.
Defined.

(** X20: when the draft statistics of a user are computed without a throw,
    the [picked] counts add up to the number of games the user was drafted in,
    the positions are listed in ascending order without repetition, and they
    are exactly the positions 1 to [playersPicked] of the configured draft
    order together with the positions computed for the games. *)
Theorem pickedStats_count_every_game
    (playersPicked : nat) (draftedGames : list Stats.game) (u : Stats.jsValue)
    (stats : list (nat * nat)) :
  Stats.pickedStats playersPicked draftedGames u = Ok stats →
  sum_list stats.*2 = length draftedGames
  ∧ StronglySorted lt stats.*1
  ∧ ∀ k, k ∈ stats.*1
         ↔ (1 ≤ k ≤ playersPicked)%nat
           ∨ ∃ g, g ∈ draftedGames ∧ Stats.pickPosition u (Stats.choices g) 0 = Ok k.
Proof.
  intros (Hsum & Hsorted & Hkeys)%foldM_bump.
  assert (((λ i : nat, (i, 0%nat)) <$> seq 1 playersPicked).*1 = seq 1 playersPicked) as Hinit1.
  { rewrite <- list_fmap_compose. apply list_fmap_id. }
  assert (sum_list ((λ i : nat, (i, 0%nat)) <$> seq 1 playersPicked).*2 = 0%nat) as Hinit2.
  { rewrite <- list_fmap_compose. generalize (seq 1 playersPicked).
    intros l. induction l as [|i l IH]; [done|].
    rewrite fmap_cons. cbn [sum_list_with compose snd id]. by rewrite IH. }
  rewrite Hinit1 in Hsorted, Hkeys. rewrite Hinit2 in Hsum.
  split_and!; [done|apply Hsorted, seq_sorted|].
  intros k. rewrite Hkeys, elem_of_seq. split; (intros [?|?]; [left; lia|by right]).
Qed.

Lemma pickedStats_count_every_game_witness :
  sum_list [(1%nat, 0%nat); (2%nat, 2%nat)].*2
  = length [StatsExample.twoTeams; StatsExample.twoTeams].
Proof.
  refine (proj1 (pickedStats_count_every_game 2
                   [StatsExample.twoTeams; StatsExample.twoTeams] (Stats.vString "dd")
                   [(1%nat, 0%nat); (2%nat, 2%nat)] _)).
  vm_compute. reflexivity.
Defined.
